(** * ChainLink order tracking: the hash-chained event ledger

  A shallow embedding of [chainlink_blockchain.py] (classes [Block] and
  [OrderBlockchain]) together with the library functions the two classes
  call: [hashlib.sha256], [json.dumps(..., sort_keys=True)] and
  [str] of a naive [datetime].

  Conventions of the embedding.
  - A Python [str] is a [string] whose characters are code points below 256.
  - A Python [int] is a [Z]; a list position produced by [range] is a [nat].
  - A [dict] is an association list in insertion order with string keys.
  - Python exceptions are values of [exn]; a method of [OrderBlockchain]
    is a computation in the monad [M], which threads the ledger ([self.chain])
    and the console ([print]) and may raise. *)

From Stdlib Require Import ZArith Ascii String List Lia DecimalString.
From stdpp Require Import base list strings sorting.

Set Warnings "-register-all".

Open Scope Z_scope.

(** ** hashlib.sha256 (FIPS 180-4), on 32-bit words carried by [Z] *)

Module Sha256.

Definition mask32 : Z := 4294967295.

(** Truncation of an integer to one 32-bit word. *)
Definition wrap (x : Z) : Z := Z.land x mask32.

Definition add32 (x y : Z) : Z := wrap (x + y).

Definition rotr (n x : Z) : Z :=
  Z.lor (Z.shiftr x n) (wrap (Z.shiftl x (32 - n))).

Definition Ch (x y z : Z) : Z :=
  Z.lxor (Z.land x y) (Z.land (Z.lxor x mask32) z).

Definition Maj (x y z : Z) : Z :=
  Z.lxor (Z.lxor (Z.land x y) (Z.land x z)) (Z.land y z).

Definition bsig0 (x : Z) : Z := Z.lxor (Z.lxor (rotr 2 x) (rotr 13 x)) (rotr 22 x).
Definition bsig1 (x : Z) : Z := Z.lxor (Z.lxor (rotr 6 x) (rotr 11 x)) (rotr 25 x).
Definition ssig0 (x : Z) : Z := Z.lxor (Z.lxor (rotr 7 x) (rotr 18 x)) (Z.shiftr x 3).
Definition ssig1 (x : Z) : Z := Z.lxor (Z.lxor (rotr 17 x) (rotr 19 x)) (Z.shiftr x 10).

(** The round constants: for each of the first sixty-four primes, the first
    thirty-two bits of the fractional part of its cube root. *)
Definition is_prime (n : Z) : bool :=
  forallb (fun d => negb (n mod Z.of_nat d =? 0)) (seq 2 (Z.to_nat n - 2)).

Definition first_primes (count : nat) (below : nat) : list Z :=
  firstn count (List.filter is_prime (List.map Z.of_nat (seq 2 below))).

(** The largest [r] below [2 ^ nbits] with [r ^ 3 <= n], one bit at a time
    from the top. *)
Fixpoint cube_root (nbits : nat) (n r : Z) : Z :=
  match nbits with
  | O => r
  | S k =>
      let r' := r + Z.shiftl 1 (Z.of_nat k) in
      cube_root k n (if r' * r' * r' <=? n then r' else r)
  end.

Definition cube_root_fraction (p : Z) : Z :=
  wrap (cube_root 36 (Z.shiftl p 96) 0).

Definition K : list Z :=
  Eval vm_compute in List.map cube_root_fraction (first_primes 64 320).

(** The eight chaining words. *)
Record regs := Regs { ra : Z; rb : Z; rc : Z; rd : Z; re : Z; rf : Z; rg : Z; rh : Z }.

Definition iv : regs :=
  Regs 0x6a09e667 0xbb67ae85 0x3c6ef372 0xa54ff53a
       0x510e527f 0x9b05688c 0x1f83d9ab 0x5be0cd19.

(** Message schedule.  [recent] holds the words computed so far, the newest
    first, so that W(t-2), W(t-7), W(t-15), W(t-16) sit at offsets 1, 6, 14, 15. *)
Fixpoint extend (n : nat) (recent : list Z) : list Z :=
  match n with
  | O => recent
  | S n' =>
      let wt := add32 (add32 (add32 (ssig1 (nth 1 recent 0)) (nth 6 recent 0))
                             (ssig0 (nth 14 recent 0))) (nth 15 recent 0) in
      extend n' (wt :: recent)
  end.

Definition schedule (block : list Z) : list Z := rev (extend 48 (rev block)).

Definition round (s : regs) (kw : Z * Z) : regs :=
  let t1 := add32 (add32 (add32 (add32 (rh s) (bsig1 (re s))) (Ch (re s) (rf s) (rg s)))
                         (fst kw)) (snd kw) in
  let t2 := add32 (bsig0 (ra s)) (Maj (ra s) (rb s) (rc s)) in
  Regs (add32 t1 t2) (ra s) (rb s) (rc s) (add32 (rd s) t1) (re s) (rf s) (rg s).

Definition compress (h : regs) (block : list Z) : regs :=
  let s := fold_left round (combine K (schedule block)) h in
  Regs (add32 (ra h) (ra s)) (add32 (rb h) (rb s)) (add32 (rc h) (rc s))
       (add32 (rd h) (rd s)) (add32 (re h) (re s)) (add32 (rf h) (rf s))
       (add32 (rg h) (rg s)) (add32 (rh h) (rh s)).

(** Big-endian rendering of [x] on [n] bytes. *)
Fixpoint be_bytes (n : nat) (x : Z) : list Z :=
  match n with
  | O => []
  | S n' => Z.land (Z.shiftr x (8 * Z.of_nat n')) 255 :: be_bytes n' x
  end.

(** Padding: the bit 1, zero bits up to 56 mod 64 bytes, the bit length on 64 bits. *)
Definition pad (msg : list Z) : list Z :=
  let len := Z.of_nat (length msg) in
  msg ++ 128 :: repeat 0 (Z.to_nat ((55 - len) mod 64)) ++ be_bytes 8 (8 * len).

Fixpoint be_words (bytes : list Z) : list Z :=
  match bytes with
  | b0 :: b1 :: b2 :: b3 :: rest =>
      Z.lor (Z.lor (Z.lor (Z.shiftl b0 24) (Z.shiftl b1 16)) (Z.shiftl b2 8)) b3
        :: be_words rest
  | _ => []
  end.

(** The padded message, sixteen words at a time. *)
Fixpoint absorb (nblocks : nat) (h : regs) (words : list Z) : regs :=
  match nblocks with
  | O => h
  | S n' => absorb n' (compress h (firstn 16 words)) (skipn 16 words)
  end.

Definition digest (msg : list Z) : list Z :=
  let words := be_words (pad msg) in
  let h := absorb (length words / 16) iv words in
  flat_map (be_bytes 4) [ra h; rb h; rc h; rd h; re h; rf h; rg h; rh h].

Definition hex_digit (d : Z) : ascii :=
  ascii_of_N (Z.to_N (if d <? 10 then 48 + d else 87 + d)).

(** [.hexdigest()]: two lowercase hexadecimal digits per byte. *)
Fixpoint hex (bytes : list Z) : string :=
  match bytes with
  | [] => EmptyString
  | b :: rest => String (hex_digit (Z.shiftr b 4)) (String (hex_digit (Z.land b 15)) (hex rest))
  end.

Definition hexdigest (msg : list Z) : string := hex (digest msg).

End Sha256.

(** [s.encode()]: UTF-8 of a string of code points below 256. *)
Fixpoint encode (s : string) : list Z :=
  match s with
  | EmptyString => []
  | String c rest =>
      let n := Z.of_N (N_of_ascii c) in
      if n <? 128 then n :: encode rest
      else Z.lor 192 (Z.shiftr n 6) :: Z.lor 128 (Z.land n 63) :: encode rest
  end.

Definition sha256_hexdigest (s : string) : string := Sha256.hexdigest (encode s).

(** ** Python values, exceptions *)

Open Scope string_scope.

(** The exceptions the modelled code can raise, each with its message. *)
Inductive exn : Type :=
| TypeError (msg : string)
| IndexError (msg : string).

Inductive result (A : Type) : Type :=
| Ok (a : A)
| Raise (e : exn).
Arguments Ok {A} a.
Arguments Raise {A} e.

Definition result_bind {A B : Type} (r : result A) (k : A -> result B) : result B :=
  match r with
  | Ok a => k a
  | Raise e => Raise e
  end.

(** The values an attribute mapping is built from: [None], [bool], [int],
    [str], a [dict] with string keys (in insertion order), and
    [PObj cls truth], an instance of a class [cls] that [json] has no encoding
    for (a [set], a [bytes], a [datetime], ...), with its truth value (an empty
    [set] is false). *)
Inductive pyval : Type :=
| PNone
| PBool (b : bool)
| PInt (n : Z)
| PStr (s : string)
| PDict (items : list (string * pyval))
| PObj (cls : string) (truth : bool).

(** Truth value of an object, as [or] tests it. *)
Definition truthy (v : pyval) : bool :=
  match v with
  | PNone => false
  | PBool b => b
  | PInt n => negb (n =? 0)%Z
  | PStr s => negb (String.eqb s "")
  | PDict items => match items with [] => false | _ :: _ => true end
  | PObj _ truth => truth
  end.

(** [a or b] *)
Definition py_or (a b : pyval) : pyval := if truthy a then a else b.

(** [l[i]] on a list, negative positions counted from the end. *)
Definition list_getitem {A : Type} (l : list A) (i : Z) : result A :=
  let j := if (i <? 0)%Z then (i + Z.of_nat (length l))%Z else i in
  if (j <? 0)%Z then Raise (IndexError "list index out of range")
  else match l !! Z.to_nat j with
       | Some x => Ok x
       | None => Raise (IndexError "list index out of range")
       end.

(** ** str(datetime) for a naive datetime *)

Record datetime : Type := Datetime {
  year : N; month : N; day : N;
  hour : N; minute : N; second : N; microsecond : N
}.

Definition decimal (n : N) : string := NilZero.string_of_uint (N.to_uint n).

(** ["%0<width>d" % n] *)
Definition zfill (width : nat) (n : N) : string :=
  let digits := decimal n in
  String.concat "" (repeat "0" (width - String.length digits)) ++ digits.

(** [datetime.__str__] is [isoformat(sep=' ')]: the fraction is printed only
    when the microsecond is not zero. *)
Definition datetime_str (t : datetime) : string :=
  zfill 4 (year t) ++ "-" ++ zfill 2 (month t) ++ "-" ++ zfill 2 (day t) ++ " "
  ++ zfill 2 (hour t) ++ ":" ++ zfill 2 (minute t) ++ ":" ++ zfill 2 (second t)
  ++ (if (microsecond t =? 0)%N then "" else "." ++ zfill 6 (microsecond t)).

(** ** json.dumps(obj, sort_keys=True) *)

Definition dquote : ascii := ascii_of_N 34.
Definition backslash : ascii := ascii_of_N 92.

Definition hex4 (n : Z) : string :=
  String (Sha256.hex_digit (Z.land (Z.shiftr n 12) 15))
    (String (Sha256.hex_digit (Z.land (Z.shiftr n 8) 15))
      (String (Sha256.hex_digit (Z.land (Z.shiftr n 4) 15))
        (String (Sha256.hex_digit (Z.land n 15)) ""))).

(** One character of a string under [ensure_ascii=True]: the quote, the
    backslash and the five named control characters get their two-character
    escapes, everything else outside [' '..'~'] is written [\uXXXX]. *)
Definition escape_char (c : ascii) : string :=
  let n := Z.of_N (N_of_ascii c) in
  if (n =? 34)%Z then String backslash (String dquote "")
  else if (n =? 92)%Z then String backslash (String backslash "")
  else if (n =? 8)%Z then String backslash "b"
  else if (n =? 12)%Z then String backslash "f"
  else if (n =? 10)%Z then String backslash "n"
  else if (n =? 13)%Z then String backslash "r"
  else if (n =? 9)%Z then String backslash "t"
  else if ((32 <=? n) && (n <=? 126))%Z then String c ""
  else String backslash ("u" ++ hex4 n).

Fixpoint escape (s : string) : string :=
  match s with
  | EmptyString => ""
  | String c rest => escape_char c ++ escape rest
  end.

Definition encode_basestring_ascii (s : string) : string :=
  String dquote (escape s ++ String dquote "").

(** [int.__repr__] *)
Definition int_repr (n : Z) : string := NilZero.string_of_int (Z.to_int n).

(** Order of the items of a dict under [sort_keys=True]: by key, keys being
    compared as strings (code point by code point). *)
Definition key_le {V : Type} (p q : string * V) : Prop := String.le (fst p) (fst q).

#[global] Instance key_le_dec {V : Type} : RelDecision (@key_le V).
Proof. intros p q. unfold key_le. apply _. Defined.

(** The items already encoded and sorted, joined with [", "]; the first item
    whose value failed to encode raises. *)
Fixpoint join_items (items : list (string * result string)) : result string :=
  match items with
  | [] => Ok ""
  | (k, r) :: rest =>
      result_bind r (fun v =>
      result_bind (join_items rest) (fun tail =>
      Ok (encode_basestring_ascii k ++ ": " ++ v
          ++ match rest with [] => "" | _ :: _ => ", " ++ tail end)))
  end.

(** The error [json] raises on an object it has no encoding for: a
    [TypeError] whose message names the class of the object. *)
Definition not_serializable (cls : string) : exn :=
  TypeError ("Object of type " ++ cls ++ " is not JSON serializable").

Fixpoint json_dumps (obj : pyval) : result string :=
  match obj with
  | PNone => Ok "null"
  | PBool b => Ok (if b then "true" else "false")
  | PInt n => Ok (int_repr n)
  | PStr s => Ok (encode_basestring_ascii s)
  | PDict items =>
      let encoded := map (fun kv => (fst kv, json_dumps (snd kv))) items in
      result_bind (join_items (merge_sort key_le encoded)) (fun body =>
      Ok ("{" ++ body ++ "}"))
  | PObj cls _ => Raise (not_serializable cls)
  end.

(** ** class Block *)

Record Block : Type := mkBlock {
  index : Z;
  timestamp : datetime;
  order_id : string;
  location : string;
  action : string;
  data : pyval;
  previous_hash : string;
  hash : string
}.

(** [Block.calculate_hash]: SHA-256 of the JSON text of the seven content
    attributes, keys sorted.  The stored [hash] is not an input. *)
Definition calculate_hash (self : Block) : result string :=
  result_bind
    (json_dumps (PDict [
       ("index", PInt (index self));
       ("timestamp", PStr (datetime_str (timestamp self)));
       ("order_id", PStr (order_id self));
       ("location", PStr (location self));
       ("action", PStr (action self));
       ("data", data self);
       ("previous_hash", PStr (previous_hash self)) ]))
    (fun block_string => Ok (sha256_hexdigest block_string)).

(** [Block.__init__]; an absent [data] argument is [PNone].  The attribute
    [hash] does not exist yet when [calculate_hash] runs; the placeholder below
    is never read. *)
Definition Block_init (index : Z) (timestamp : datetime)
    (order_id location action previous_hash : string) (data : pyval) : result Block :=
  let self := mkBlock index timestamp order_id location action
                      (py_or data (PDict [])) previous_hash "" in
  result_bind (calculate_hash self) (fun h =>
  Ok (mkBlock index timestamp order_id location action
              (py_or data (PDict [])) previous_hash h)).

(** ** class OrderBlockchain *)

(** What [validate_chain] prints before it returns [False]: at which position,
    and which of its two messages ("Hash mismatch!" or "Chain broken!"). *)
Inductive diagnostic : Type :=
| HashMismatch (i : nat)
| ChainBroken (i : nat).

(** The state a method runs in: [self.chain] and the lines printed so far. *)
Record world : Type := World {
  chain : list Block;
  console : list diagnostic
}.

(** A method: it may change the state, and returns or raises. *)
Definition M (A : Type) : Type := world -> result A * world.

Definition ret {A : Type} (a : A) : M A := fun w => (Ok a, w).

Definition bind {A B : Type} (m : M A) (k : A -> M B) : M B :=
  fun w => match m w with
           | (Ok a, w') => k a w'
           | (Raise e, w') => (Raise e, w')
           end.

Declare Scope method_scope.
Delimit Scope method_scope with method.
Notation "x <- m ;; k" := (bind m (fun x => k))
  (at level 20, m at level 99, k at level 200, only parsing) : method_scope.
Notation "m ;; k" := (bind m (fun _ => k))
  (at level 100, k at level 200, right associativity, only parsing) : method_scope.
Open Scope method_scope.

Definition lift {A : Type} (r : result A) : M A := fun w => (r, w).
Definition get_chain : M (list Block) := fun w => (Ok (chain w), w).
Definition set_chain (c : list Block) : M unit := fun w => (Ok tt, World c (console w)).
Definition print (d : diagnostic) : M unit :=
  fun w => (Ok tt, World (chain w) (console w ++ [d])).

(** [self.chain.append(b)] *)
Definition chain_append (b : Block) : M unit :=
  c <- get_chain ;; set_chain (c ++ [b]).

(** [for x in xs: body], where the body may [return]: [Some a] is [return a],
    [None] is the end of the body. *)
Fixpoint for_in {A : Type} (xs : list nat) (body : nat -> M (option A)) : M (option A) :=
  match xs with
  | [] => ret None
  | x :: rest =>
      r <- body x ;;
      match r with
      | Some a => ret (Some a)
      | None => for_in rest body
      end
  end.

(** [range(start, stop)] *)
Definition range (start stop : nat) : list nat := seq start (stop - start).

(** [datetime.now()] is an input: each method that reads the clock takes the
    reading as its argument [now]. *)
Definition create_genesis_block (now : datetime) : M unit :=
  genesis_block <- lift (Block_init 0 now "GENESIS" "System" "Chain Initialized" "0" PNone) ;;
  chain_append genesis_block.

(** [OrderBlockchain.__init__] *)
Definition OrderBlockchain_init (now : datetime) : M unit :=
  set_chain [] ;;
  create_genesis_block now.

Definition get_latest_block : M Block :=
  c <- get_chain ;; lift (list_getitem c (-1)).

Definition add_block (order_id location action : string) (data : pyval)
    (now : datetime) : M Block :=
  previous_block <- get_latest_block ;;
  let new_index := (index previous_block + 1)%Z in
  let new_timestamp := now in
  new_block <- lift (Block_init new_index new_timestamp order_id location action
                                (hash previous_block) data) ;;
  chain_append new_block ;;
  ret new_block.

Definition validate_chain : M bool :=
  c <- get_chain ;;
  r <- for_in (range 1 (length c)) (fun i =>
         c <- get_chain ;;
         current_block <- lift (list_getitem c (Z.of_nat i)) ;;
         previous_block <- lift (list_getitem c (Z.of_nat i - 1)) ;;
         h <- lift (calculate_hash current_block) ;;
         if negb (String.eqb (hash current_block) h) then
           print (HashMismatch i) ;; ret (Some false)
         else if negb (String.eqb (previous_hash current_block) (hash previous_block)) then
           print (ChainBroken i) ;; ret (Some false)
         else ret None) ;;
  match r with
  | Some b => ret b
  | None => ret true
  end.

Definition get_order_journey (oid : string) : M (list Block) :=
  c <- get_chain ;;
  let order_blocks := filter (fun block => order_id block = oid) c in
  ret order_blocks.

(** ** The tamper demonstration of [simulate_order_tracking]

    [blockchain.chain[i].<attribute> = value], then
    [blockchain.chain[i].hash = blockchain.chain[i].calculate_hash()],
    for any position and any attribute (the script uses position 4 and
    [action]). *)

Inductive assignment : Type :=
| SetIndex (v : Z)
| SetTimestamp (v : datetime)
| SetOrderId (v : string)
| SetLocation (v : string)
| SetAction (v : string)
| SetData (v : pyval)
| SetPreviousHash (v : string)
| SetHash (v : string).

Definition setattr (b : Block) (a : assignment) : Block :=
  match a with
  | SetIndex v => mkBlock v (timestamp b) (order_id b) (location b) (action b) (data b) (previous_hash b) (hash b)
  | SetTimestamp v => mkBlock (index b) v (order_id b) (location b) (action b) (data b) (previous_hash b) (hash b)
  | SetOrderId v => mkBlock (index b) (timestamp b) v (location b) (action b) (data b) (previous_hash b) (hash b)
  | SetLocation v => mkBlock (index b) (timestamp b) (order_id b) v (action b) (data b) (previous_hash b) (hash b)
  | SetAction v => mkBlock (index b) (timestamp b) (order_id b) (location b) v (data b) (previous_hash b) (hash b)
  | SetData v => mkBlock (index b) (timestamp b) (order_id b) (location b) (action b) v (previous_hash b) (hash b)
  | SetPreviousHash v => mkBlock (index b) (timestamp b) (order_id b) (location b) (action b) (data b) v (hash b)
  | SetHash v => mkBlock (index b) (timestamp b) (order_id b) (location b) (action b) (data b) (previous_hash b) v
  end.

(** The assignment that puts back what [a] overwrote in [original]. *)
Definition restore (original : Block) (a : assignment) : assignment :=
  match a with
  | SetIndex _ => SetIndex (index original)
  | SetTimestamp _ => SetTimestamp (timestamp original)
  | SetOrderId _ => SetOrderId (order_id original)
  | SetLocation _ => SetLocation (location original)
  | SetAction _ => SetAction (action original)
  | SetData _ => SetData (data original)
  | SetPreviousHash _ => SetPreviousHash (previous_hash original)
  | SetHash _ => SetHash (hash original)
  end.

(** [self.chain[i].<attribute> = value] *)
Definition chain_setattr (i : nat) (a : assignment) : M unit :=
  c <- get_chain ;;
  b <- lift (list_getitem c (Z.of_nat i)) ;;
  set_chain (<[i := setattr b a]> c).

(** [self.chain[i].hash = self.chain[i].calculate_hash()] *)
Definition chain_rehash (i : nat) : M unit :=
  c <- get_chain ;;
  b <- lift (list_getitem c (Z.of_nat i)) ;;
  h <- lift (calculate_hash b) ;;
  set_chain (<[i := setattr b (SetHash h)]> c).

(** Running a method: its outcome, and the state it leaves. *)
Definition outcome {A : Type} (m : M A) (w : world) : result A := fst (m w).
Definition exec {A : Type} (m : M A) (w : world) : world := snd (m w).

(** ** Notions the properties are stated with *)

(** [f] applied to what a computation returns. *)
Definition result_map {A B : Type} (f : A -> B) (r : result A) : result B :=
  result_bind r (fun a => Ok (f a)).

(** A value [json.dumps] accepts: no [PObj] anywhere in it. *)
Fixpoint serializable (v : pyval) : bool :=
  match v with
  | PDict items => forallb (fun kv => serializable (snd kv)) items
  | PObj _ _ => false
  | _ => true
  end.

(** The classes of the objects in [v] that [json.dumps] has no encoding for. *)
Fixpoint opaque_classes (v : pyval) : list string :=
  match v with
  | PDict items => flat_map (fun kv => opaque_classes (snd kv)) items
  | PObj cls _ => [cls]
  | _ => []
  end.

(** The stored hash of [b] is the digest of its stored attributes. *)
Definition sealed (b : Block) : Prop := calculate_hash b = Ok (hash b).

(** The record at position [i] passes both checks of [validate_chain]. *)
Definition passes (c : list Block) (i : nat) : Prop :=
  exists cur prev,
    c !! i = Some cur /\ c !! (i - 1)%nat = Some prev /\
    sealed cur /\ previous_hash cur = hash prev.

(** The data-model invariant: every record is sealed and every record but the
    first carries the hash of the record before it. *)
Definition valid_state (c : list Block) : Prop :=
  (forall i b, c !! i = Some b -> sealed b) /\
  (forall i b p, c !! S i = Some b -> c !! i = Some p -> previous_hash b = hash p).

(** What creation establishes and every append keeps: the genesis record
    in front, every index equal to the position, and [valid_state]. *)
Definition well_formed (c : list Block) : Prop :=
  (exists g, c !! 0%nat = Some g /\ index g = 0%Z /\ order_id g = "GENESIS"
             /\ previous_hash g = "0") /\
  (forall i b, c !! i = Some b -> index b = Z.of_nat i) /\
  valid_state c.

(** The attributes [Block.__init__] stores can be serialized. *)
Definition accepted (attrs : pyval) : bool := serializable (py_or attrs (PDict [])).

(** One call of [add_block], with the clock reading it gets. *)
Record append_call : Type := Append {
  call_order_id : string;
  call_location : string;
  call_action : string;
  call_data : pyval;
  call_now : datetime
}.

Definition do_append (w : world) (a : append_call) : world :=
  exec (add_block (call_order_id a) (call_location a) (call_action a)
                  (call_data a) (call_now a)) w.

(** [OrderBlockchain()] at time [now], on a console showing [out]. *)
Definition new_ledger (now : datetime) (out : list diagnostic) : world :=
  exec (OrderBlockchain_init now) (World [] out).

(** The ledger after creation and a sequence of appends. *)
Definition ledger_after (now : datetime) (out : list diagnostic)
    (calls : list append_call) : world :=
  fold_left do_append calls (new_ledger now out).

(** The scenario the properties are tried on: a ledger created at
    [scenario_clock], then two appends for the order "A1". *)
Definition scenario_clock : datetime := Datetime 2025 1 2 3 4 5 0.

Definition scenario : world :=
  ledger_after scenario_clock []
    [ Append "A1" "Loc1" "Received" (PDict []) scenario_clock;
      Append "A1" "Loc2" "Shipped" (PDict []) scenario_clock ].

(** What one iteration of the loop of [validate_chain] decides at position [i]. *)
Definition check (i : nat) (prev cur : Block) : result (option diagnostic) :=
  result_bind (calculate_hash cur) (fun h =>
    if negb (String.eqb (hash cur) h) then Ok (Some (HashMismatch i))
    else if negb (String.eqb (previous_hash cur) (hash prev)) then Ok (Some (ChainBroken i))
    else Ok None).

(** The loop of [validate_chain] as a scan of the records after [prev], the
    first of them being at position [i]. *)
Fixpoint scan (i : nat) (prev : Block) (rest : list Block) : result (option diagnostic) :=
  match rest with
  | [] => Ok None
  | cur :: rest' =>
      match check i prev cur with
      | Ok None => scan (S i) cur rest'
      | r => r
      end
  end.

Definition first_violation (c : list Block) : result (option diagnostic) :=
  match c with
  | [] => Ok None
  | genesis :: rest => scan 1 genesis rest
  end.

(** The state [validate_chain] leaves and what it returns, given the scan. *)
Definition verdict (w : world) (r : result (option diagnostic)) : result bool * world :=
  match r with
  | Ok None => (Ok true, w)
  | Ok (Some d) => (Ok false, World (chain w) (console w ++ [d]))
  | Raise e => (Raise e, w)
  end.

(** The body of the loop of [validate_chain]. *)
Definition validate_body (i : nat) : M (option bool) :=
  c <- get_chain ;;
  current_block <- lift (list_getitem c (Z.of_nat i)) ;;
  previous_block <- lift (list_getitem c (Z.of_nat i - 1)) ;;
  h <- lift (calculate_hash current_block) ;;
  if negb (String.eqb (hash current_block) h) then
    print (HashMismatch i) ;; ret (Some false)
  else if negb (String.eqb (previous_hash current_block) (hash previous_block)) then
    print (ChainBroken i) ;; ret (Some false)
  else ret None.

(** What the loop leaves and returns, given the scan. *)
Definition loop_verdict (w : world) (r : result (option diagnostic))
    : result (option bool) * world :=
  match r with
  | Ok None => (Ok None, w)
  | Ok (Some d) => (Ok (Some false), World (chain w) (console w ++ [d])%list)
  | Raise e => (Raise e, w)
  end.

(** [n] calls of [validate_chain] in a row: the outcomes, in order. *)
Fixpoint validate_repeatedly (n : nat) (w : world) : list (result bool) :=
  match n with
  | O => []
  | S n' => outcome validate_chain w :: validate_repeatedly n' (exec validate_chain w)
  end.

(** ** Further notions

    [Block.__repr__], and what the further properties are stated with. *)

(** [c] is one of [0-9a-f]. *)
Definition is_lower_hex (c : ascii) : bool :=
  let n := N_of_ascii c in
  ((48 <=? n) && (n <=? 57) || (97 <=? n) && (n <=? 102))%N.

Fixpoint string_forall (p : ascii -> bool) (s : string) : bool :=
  match s with
  | EmptyString => true
  | String c rest => p c && string_forall p rest
  end.

(** [Block.__repr__]; [s[:n]] is [substring 0 n s]. *)
Definition Block_repr (self : Block) : string :=
  "Block " ++ int_repr (index self) ++ ": " ++ location self ++ " - " ++ action self
  ++ " (Hash: " ++ substring 0 8 (hash self) ++ "...)".

(** The position a diagnostic names. *)
Definition diagnostic_position (d : diagnostic) : nat :=
  match d with
  | HashMismatch i => i
  | ChainBroken i => i
  end.

(** The text [calculate_hash] hashes. *)
Definition block_string (self : Block) : result string :=
  json_dumps (PDict [
    ("index", PInt (index self));
    ("timestamp", PStr (datetime_str (timestamp self)));
    ("order_id", PStr (order_id self));
    ("location", PStr (location self));
    ("action", PStr (action self));
    ("data", data self);
    ("previous_hash", PStr (previous_hash self)) ]).

(** One escaped character read back from the head of a JSON string body;
    [None] at the closing quote or on a malformed escape. *)
Definition hex_value (c : ascii) : option Z :=
  let n := Z.of_N (N_of_ascii c) in
  if ((48 <=? n) && (n <=? 57))%Z then Some (n - 48)%Z
  else if ((97 <=? n) && (n <=? 102))%Z then Some (n - 87)%Z
  else None.

Definition unescape_head (s : string) : option (ascii * string) :=
  match s with
  | EmptyString => None
  | String c rest =>
      if Ascii.eqb c dquote then None
      else if Ascii.eqb c backslash then
        match rest with
        | EmptyString => None
        | String e rest' =>
            if Ascii.eqb e dquote then Some (dquote, rest')
            else if Ascii.eqb e backslash then Some (backslash, rest')
            else if Ascii.eqb e "b" then Some (ascii_of_N 8, rest')
            else if Ascii.eqb e "f" then Some (ascii_of_N 12, rest')
            else if Ascii.eqb e "n" then Some (ascii_of_N 10, rest')
            else if Ascii.eqb e "r" then Some (ascii_of_N 13, rest')
            else if Ascii.eqb e "t" then Some (ascii_of_N 9, rest')
            else if Ascii.eqb e "u" then
              match rest' with
              | String h1 (String h2 (String h3 (String h4 rest''))) =>
                  match hex_value h1, hex_value h2, hex_value h3, hex_value h4 with
                  | Some v1, Some v2, Some v3, Some v4 =>
                      Some (ascii_of_N (Z.to_N (((v1 * 16 + v2) * 16 + v3) * 16 + v4)),
                            rest'')
                  | _, _, _, _ => None
                  end
              | _ => None
              end
            else None
        end
      else Some (c, rest)
  end.

(** [a] overwrites one of the four string attributes that enter the digest
    with a value other than the stored one. *)
Definition changes_string_attribute (b : Block) (a : assignment) : Prop :=
  match a with
  | SetOrderId v => v <> order_id b
  | SetLocation v => v <> location b
  | SetAction v => v <> action b
  | SetPreviousHash v => v <> previous_hash b
  | _ => False
  end.

(** The records of the scenario, computed. *)
Definition scenario_records : list Block := Eval vm_compute in chain scenario.

(** * Properties *)

(** ** The JSON text of a dict *)

(** Induction on values, through the items of a dict. *)
Section pyval_induction.
Variable P : pyval -> Prop.
Hypothesis HNone : P PNone.
Hypothesis HBool : forall b, P (PBool b).
Hypothesis HInt : forall n, P (PInt n).
Hypothesis HStr : forall s, P (PStr s).
Hypothesis HDict : forall items, Forall (fun kv => P (snd kv)) items -> P (PDict items).
Hypothesis HObj : forall cls truth, P (PObj cls truth).

Fixpoint pyval_nested_ind (v : pyval) : P v :=
  match v with
  | PNone => HNone
  | PBool b => HBool b
  | PInt n => HInt n
  | PStr s => HStr s
  | PDict items =>
      HDict items
        ((fix go (l : list (string * pyval)) : Forall (fun kv => P (snd kv)) l :=
            match l with
            | [] => List.Forall_nil _
            | kv :: l' => List.Forall_cons _ kv l' (pyval_nested_ind (snd kv)) (go l')
            end) items)
  | PObj cls truth => HObj cls truth
  end.
End pyval_induction.

Lemma json_dumps_dict (items : list (string * pyval)) :
  json_dumps (PDict items)
  = result_bind
      (join_items (merge_sort key_le (map (fun kv => (fst kv, json_dumps (snd kv))) items)))
      (fun body => Ok ("{" ++ body ++ "}")).
Proof. reflexivity. Qed.

Lemma sorted_block_items (vi vt vo vl va vd vp : result string) :
  merge_sort key_le
    [("index", vi); ("timestamp", vt); ("order_id", vo); ("location", vl);
     ("action", va); ("data", vd); ("previous_hash", vp)]
  = [("action", va); ("data", vd); ("index", vi); ("location", vl);
     ("order_id", vo); ("previous_hash", vp); ("timestamp", vt)].
Proof. reflexivity. Qed.

Lemma calculate_hash_data (b : Block) :
  match json_dumps (data b) with
  | Ok d => exists h, calculate_hash b = Ok h
  | Raise e => calculate_hash b = Raise e
  end.
Proof.
  unfold calculate_hash. rewrite json_dumps_dict.
  cbn [map fst snd]. rewrite sorted_block_items.
  cbn [join_items json_dumps result_bind].
  destruct (json_dumps (data b)) as [d|e]; cbn [result_bind]; eauto.
Qed.

#[global] Instance key_le_trans {V : Type} : Transitive (@key_le V).
Proof. intros p q r. unfold key_le. apply transitivity. Qed.

#[global] Instance key_le_total {V : Type} : Total (@key_le V).
Proof. intros p q. unfold key_le. apply total, _. Qed.

Lemma key_le_antisym {V : Type} (p q : string * V) :
  key_le p q -> key_le q p -> fst p = fst q.
Proof. unfold key_le. intros. by apply (anti_symm String.le). Qed.

(** Two items of a dict with the same key are the same item. *)
Lemma NoDup_fst_inj {V : Type} (l : list (string * V)) (p q : string * V) :
  NoDup (map fst l) -> p ∈ l -> q ∈ l -> fst p = fst q -> p = q.
Proof.
  induction l as [|x l IH]; intros Hnd Hp Hq Hk; [by apply elem_of_nil in Hp|].
  cbn [map] in Hnd. apply NoDup_cons in Hnd as [Hx Hnd].
  apply elem_of_cons in Hp as [->|Hp]; apply elem_of_cons in Hq as [->|Hq]; auto.
  - exfalso. apply Hx. rewrite Hk. by apply (list_elem_of_fmap_2 fst).
  - exfalso. apply Hx. rewrite <- Hk. by apply (list_elem_of_fmap_2 fst).
Qed.

Lemma sort_items_perm {V : Type} (l1 l2 : list (string * V)) :
  NoDup (map fst l1) -> l1 ≡ₚ l2 ->
  merge_sort key_le l1 = merge_sort key_le l2.
Proof.
  intros Hnd Hperm.
  apply (Sorted_unique_strong key_le).
  - intros p q Hp Hq Hpq Hqp.
    apply (NoDup_fst_inj l1); auto using key_le_antisym.
    + by rewrite merge_sort_Permutation in Hp.
    + by rewrite merge_sort_Permutation, <- Hperm in Hq.
  - apply Sorted_merge_sort, _.
  - apply Sorted_merge_sort, _.
  - by rewrite !merge_sort_Permutation.
Qed.

Lemma json_dumps_dict_perm (d1 d2 : list (string * pyval)) :
  NoDup (map fst d1) -> d1 ≡ₚ d2 ->
  json_dumps (PDict d1) = json_dumps (PDict d2).
Proof.
  intros Hnd Hperm. rewrite !json_dumps_dict. f_equal. f_equal.
  apply sort_items_perm.
  - by rewrite map_map.
  - by apply Permutation_map.
Qed.

Lemma join_items_ok (items : list (string * result string)) :
  (forall kr, kr ∈ items -> exists s, snd kr = Ok s) ->
  exists s, join_items items = Ok s.
Proof.
  induction items as [|[k r] items IH]; intros Hall; [by eexists|].
  destruct (Hall (k, r)) as [v Hv]; [by left|]. cbn [snd] in Hv. subst r.
  destruct IH as [tail Htail]; [intros kr Hkr; apply Hall; by right|].
  cbn [join_items result_bind]. rewrite Htail. cbn [result_bind]. by eexists.
Qed.

Lemma join_items_raise (items : list (string * result string)) (e : exn) :
  join_items items = Raise e -> exists k, (k, Raise e) ∈ items.
Proof.
  induction items as [|[k r] items IH]; [discriminate|].
  cbn [join_items]. destruct r as [v|e']; cbn [result_bind].
  - destruct (join_items items) as [tail|e'']; cbn [result_bind]; [discriminate|].
    intros [= ->]. destruct IH as [k' Hk']; [done|]. exists k'. by right.
  - intros [= ->]. exists k. by left.
Qed.

Lemma join_items_failing (items : list (string * result string)) k e :
  (k, Raise e) ∈ items -> exists e', join_items items = Raise e'.
Proof.
  induction items as [|[k0 r] items IH]; intros Hin; [by apply elem_of_nil in Hin|].
  cbn [join_items]. destruct r as [v|e0]; cbn [result_bind]; [|by eexists].
  apply elem_of_cons in Hin as [[=]|Hin].
  destruct (IH Hin) as [e' ->]. cbn [result_bind]. by eexists.
Qed.

Lemma json_dumps_ok (v : pyval) :
  serializable v = true -> exists s, json_dumps v = Ok s.
Proof.
  induction v as [| | | |items IH|] using pyval_nested_ind; intros Hser;
    try discriminate; try (by eexists).
  rewrite json_dumps_dict.
  destruct (join_items_ok (merge_sort key_le
              (map (fun kv => (fst kv, json_dumps (snd kv))) items))) as [body ->];
    [|by eexists].
  intros kr Hkr. rewrite merge_sort_Permutation in Hkr.
  apply list_elem_of_fmap in Hkr as [kv [-> Hkv]]. cbn [snd].
  rewrite Forall_forall in IH. apply IH; [done|].
  cbn [serializable] in Hser. rewrite forallb_forall in Hser.
  apply Hser. by apply list_elem_of_In.
Qed.

Lemma json_dumps_raise (v : pyval) (e : exn) :
  json_dumps v = Raise e ->
  exists cls, cls ∈ opaque_classes v /\ e = not_serializable cls.
Proof.
  revert e. induction v as [| | | |items IH|cls truth] using pyval_nested_ind;
    intros e; try discriminate.
  - rewrite json_dumps_dict.
    destruct (join_items _) as [body|e'] eqn:Hjoin; cbn [result_bind]; [discriminate|].
    intros [= ->]. apply join_items_raise in Hjoin as [k Hk].
    rewrite merge_sort_Permutation in Hk.
    apply list_elem_of_fmap in Hk as [kv [[= -> Hkv] Hin]].
    rewrite Forall_forall in IH. destruct (IH kv Hin e) as [cls [Hcls ->]]; [done|].
    exists cls. split; [|done].
    cbn [opaque_classes]. apply list_elem_of_In, in_flat_map.
    exists kv. split; by apply list_elem_of_In.
  - cbn [json_dumps]. intros [= <-]. exists cls. split; [|done]. by left.
Qed.

Lemma json_dumps_not_ok (v : pyval) :
  serializable v = false -> exists e, json_dumps v = Raise e.
Proof.
  induction v as [| | | |items IH|cls truth] using pyval_nested_ind; intros Hser;
    try discriminate; [|by eexists].
  cbn [serializable] in Hser.
  assert (exists kv, kv ∈ items /\ serializable (snd kv) = false) as [kv [Hin Hkv]].
  { clear IH. induction items as [|x items IHi]; [discriminate|].
    cbn [forallb] in Hser. apply andb_false_iff in Hser as [Hx|Hrest].
    - exists x. split; [by left|done].
    - destruct (IHi Hrest) as [kv [? ?]]. exists kv. split; [by right|done]. }
  rewrite Forall_forall in IH. destruct (IH kv Hin Hkv) as [e He].
  rewrite json_dumps_dict.
  destruct (join_items_failing
              (merge_sort key_le (map (fun kv => (fst kv, json_dumps (snd kv))) items))
              (fst kv) e) as [e' ->]; [|by eexists].
  rewrite merge_sort_Permutation. apply list_elem_of_fmap.
  exists kv. split; [by rewrite He|done].
Qed.

(** ** Positions of a list *)

Lemma list_getitem_lookup {A : Type} (l : list A) (n : nat) (x : A) :
  l !! n = Some x -> list_getitem l (Z.of_nat n) = Ok x.
Proof.
  intros Hx. unfold list_getitem.
  destruct (Z.ltb_spec (Z.of_nat n) 0) as [?|_]; [lia|].
  destruct (Z.ltb_spec (Z.of_nat n) 0) as [?|_]; [lia|].
  by rewrite Nat2Z.id, Hx.
Qed.

Lemma list_getitem_beyond {A : Type} (l : list A) (n : nat) :
  (length l <= n)%nat ->
  list_getitem l (Z.of_nat n) = Raise (IndexError "list index out of range").
Proof.
  intros Hn. unfold list_getitem.
  destruct (Z.ltb_spec (Z.of_nat n) 0) as [?|_]; [lia|].
  destruct (Z.ltb_spec (Z.of_nat n) 0) as [?|_]; [lia|].
  rewrite Nat2Z.id. by rewrite (lookup_ge_None_2 l n).
Qed.

Lemma list_getitem_last {A : Type} (l : list A) (x : A) :
  list_getitem (l ++ [x]) (-1) = Ok x.
Proof.
  unfold list_getitem. rewrite length_app. cbn [length].
  destruct (Z.ltb_spec (-1) 0) as [_|?]; [|lia].
  destruct (Z.ltb_spec (-1 + Z.of_nat (length l + 1)) 0) as [?|_]; [lia|].
  replace (Z.to_nat (-1 + Z.of_nat (length l + 1))) with (length l) by lia.
  by rewrite list_lookup_middle.
Qed.

Lemma list_getitem_last_nil {A : Type} :
  list_getitem (@nil A) (-1) = Raise (IndexError "list index out of range").
Proof. reflexivity. Qed.

(** ** Block *)

Lemma calculate_hash_ignores_hash (b : Block) (h : string) :
  calculate_hash (setattr b (SetHash h)) = calculate_hash b.
Proof. reflexivity. Qed.

Lemma Block_init_eq index timestamp order_id location action previous_hash data :
  Block_init index timestamp order_id location action previous_hash data
  = result_map
      (mkBlock index timestamp order_id location action (py_or data (PDict [])) previous_hash)
      (calculate_hash (mkBlock index timestamp order_id location action
                               (py_or data (PDict [])) previous_hash "")).
Proof. reflexivity. Qed.

Lemma Block_init_sealed index timestamp order_id location action previous_hash data b :
  Block_init index timestamp order_id location action previous_hash data = Ok b ->
  sealed b /\
  b = mkBlock index timestamp order_id location action (py_or data (PDict []))
              previous_hash (hash b).
Proof.
  rewrite Block_init_eq. unfold result_map, sealed.
  destruct (calculate_hash _) as [h|e] eqn:Hh; cbn [result_bind]; [|discriminate].
  intros [= <-]. cbn [hash]. split; [exact Hh|reflexivity].
Qed.

Lemma Block_init_ok index timestamp order_id location action previous_hash attrs :
  serializable (py_or attrs (PDict [])) = true ->
  exists b, Block_init index timestamp order_id location action previous_hash attrs = Ok b.
Proof.
  intros Hser. rewrite Block_init_eq.
  pose proof (calculate_hash_data (mkBlock index timestamp order_id location action
                                     (py_or attrs (PDict [])) previous_hash "")) as Hc.
  cbn [data] in Hc.
  destruct (json_dumps_ok _ Hser) as [d Hd]. rewrite Hd in Hc.
  destruct Hc as [h ->]. by eexists.
Qed.

Lemma Block_init_raise index timestamp order_id location action previous_hash attrs :
  serializable (py_or attrs (PDict [])) = false ->
  exists cls, cls ∈ opaque_classes (py_or attrs (PDict [])) /\
    Block_init index timestamp order_id location action previous_hash attrs
    = Raise (not_serializable cls).
Proof.
  intros Hser. rewrite Block_init_eq.
  pose proof (calculate_hash_data (mkBlock index timestamp order_id location action
                                     (py_or attrs (PDict [])) previous_hash "")) as Hc.
  cbn [data] in Hc.
  destruct (json_dumps_not_ok _ Hser) as [e He]. rewrite He in Hc.
  destruct (json_dumps_raise _ _ He) as [cls [Hcls ->]].
  exists cls. split; [done|]. by rewrite Hc.
Qed.

(** ** The methods of OrderBlockchain in closed form *)

Lemma world_eta (w : world) : World (chain w) (console w) = w.
Proof. by destruct w. Qed.

Lemma add_block_eq oid loc act attrs now (w : world) :
  add_block oid loc act attrs now w
  = match list_getitem (chain w) (-1) with
    | Raise e => (Raise e, w)
    | Ok l =>
        match Block_init (index l + 1) now oid loc act (hash l) attrs with
        | Raise e => (Raise e, w)
        | Ok b => (Ok b, World (chain w ++ [b])%list (console w))
        end
    end.
Proof.
  unfold add_block, get_latest_block, chain_append, bind, get_chain, set_chain, lift, ret.
  destruct (list_getitem (chain w) (-1)) as [l|e]; [|done].
  by destruct (Block_init _ _ _ _ _ _ _).
Qed.

Lemma get_order_journey_eq (oid : string) (w : world) :
  get_order_journey oid w
  = (Ok (filter (fun block => order_id block = oid) (chain w)), w).
Proof. reflexivity. Qed.

Lemma validate_body_check (w : world) (i : nat) (prev cur : Block) :
  chain w !! S i = Some cur -> chain w !! i = Some prev ->
  validate_body (S i) w = loop_verdict w (check (S i) prev cur).
Proof.
  intros Hcur Hprev. unfold validate_body, bind, get_chain, lift, check.
  rewrite (list_getitem_lookup _ _ _ Hcur).
  replace (Z.of_nat (S i) - 1)%Z with (Z.of_nat i) by lia.
  rewrite (list_getitem_lookup _ _ _ Hprev).
  destruct (calculate_hash cur) as [h|e]; cbn [result_bind]; [|done].
  destruct (negb (String.eqb (hash cur) h)); [done|].
  by destruct (negb (String.eqb (previous_hash cur) (hash prev))).
Qed.

Lemma validate_loop (w : world) (rest pre : list Block) (prev : Block) :
  chain w = (pre ++ prev :: rest)%list ->
  for_in (seq (S (length pre)) (length rest)) validate_body w
  = loop_verdict w (scan (S (length pre)) prev rest).
Proof.
  revert pre prev. induction rest as [|cur rest IH]; intros pre prev Hc; [done|].
  cbn [length seq for_in scan]. unfold bind at 1.
  rewrite (validate_body_check w (length pre) prev cur).
  - destruct (check (S (length pre)) prev cur) as [[d|]|e]; cbn [loop_verdict]; try done.
    specialize (IH (pre ++ [prev])%list cur).
    rewrite length_app, Nat.add_1_r in IH. apply IH.
    by rewrite <- app_assoc.
  - rewrite Hc. by rewrite (lookup_app_r pre) by lia; replace (S (length pre) - length pre)%nat with 1%nat by lia.
  - rewrite Hc. by rewrite list_lookup_middle.
Qed.

Lemma validate_chain_verdict (w : world) :
  validate_chain w = verdict w (first_violation (chain w)).
Proof.
  change (validate_chain w) with
    (bind get_chain (fun c =>
       bind (for_in (range 1 (length c)) validate_body) (fun r =>
         match r with Some b => ret b | None => ret true end)) w).
  unfold bind at 1 2, get_chain, range.
  destruct (chain w) as [|genesis rest] eqn:Hc; [done|].
  cbn [length first_violation]. rewrite Nat.sub_succ, Nat.sub_0_r.
  pose proof (validate_loop w rest [] genesis Hc) as Hloop.
  cbn [length] in Hloop. rewrite Hloop.
  by destruct (scan 1 genesis rest) as [[d|]|e].
Qed.

(** ** The scan *)

Lemma string_neqb (s t : string) : negb (String.eqb s t) = false <-> s = t.
Proof. rewrite negb_false_iff. apply String.eqb_eq. Qed.

Lemma check_pass_iff (i : nat) (prev cur : Block) :
  check i prev cur = Ok None <-> sealed cur /\ previous_hash cur = hash prev.
Proof.
  unfold check, sealed.
  destruct (calculate_hash cur) as [h|e]; cbn [result_bind].
  - destruct (negb (String.eqb (hash cur) h)) eqn:Hh.
    + split; [discriminate|]. intros [[= ->] _].
      apply negb_true_iff, String.eqb_neq in Hh. done.
    + apply string_neqb in Hh as ->.
      destruct (negb (String.eqb (previous_hash cur) (hash prev))) eqn:Hp.
      * split; [discriminate|]. intros [_ Hl].
        apply negb_true_iff, String.eqb_neq in Hp. done.
      * apply string_neqb in Hp. by split.
  - split; [discriminate|]. by intros [? _].
Qed.

Lemma check_mismatch (i : nat) (prev cur : Block) (h : string) :
  calculate_hash cur = Ok h -> h <> hash cur ->
  check i prev cur = Ok (Some (HashMismatch i)).
Proof.
  intros Hh Hne. unfold check. rewrite Hh. cbn [result_bind].
  destruct (negb (String.eqb (hash cur) h)) eqn:Heq; [done|].
  apply string_neqb in Heq. congruence.
Qed.

Lemma check_broken (i : nat) (prev cur : Block) :
  sealed cur -> previous_hash cur <> hash prev ->
  check i prev cur = Ok (Some (ChainBroken i)).
Proof.
  intros Hs Hne. unfold check. rewrite Hs. cbn [result_bind].
  rewrite String.eqb_refl. cbn [negb].
  destruct (negb (String.eqb (previous_hash cur) (hash prev))) eqn:Heq; [done|].
  by apply string_neqb in Heq.
Qed.

Lemma check_raise (i : nat) (prev cur : Block) (e : exn) :
  calculate_hash cur = Raise e -> check i prev cur = Raise e.
Proof. intros He. unfold check. by rewrite He. Qed.

Lemma passes_1 (prev cur : Block) (rest : list Block) :
  passes (prev :: cur :: rest) 1 <-> sealed cur /\ previous_hash cur = hash prev.
Proof.
  unfold passes. split.
  - intros (c & p & [= <-] & [= <-] & Hs & Hl). done.
  - intros [Hs Hl]. by exists cur, prev.
Qed.

Lemma passes_S (x : Block) (l : list Block) (j : nat) :
  (1 <= j)%nat -> passes (x :: l) (S j) <-> passes l j.
Proof.
  intros Hj. unfold passes. destruct j as [|j]; [lia|].
  cbn [lookup list_lookup]. by rewrite !Nat.sub_succ, !Nat.sub_0_r.
Qed.

Lemma scan_none_iff (i : nat) (prev : Block) (rest : list Block) :
  scan i prev rest = Ok None <->
  forall j, (1 <= j < length (prev :: rest))%nat -> passes (prev :: rest) j.
Proof.
  revert i prev. induction rest as [|cur rest IH]; intros i prev.
  - split; [|done]. cbn [length]. intros _ j Hj. lia.
  - cbn [scan]. split.
    + intros Hscan j Hj.
      destruct (check i prev cur) as [[d|]|e] eqn:Hcheck; try discriminate.
      destruct (decide (j = 1%nat)) as [->|Hne].
      * by apply passes_1, (check_pass_iff i).
      * destruct j as [|j]; [lia|]. apply passes_S; [lia|].
        apply (IH (S i) cur); [done|]. cbn [length] in *. lia.
    + intros Hall.
      assert (check i prev cur = Ok None) as ->.
      { apply check_pass_iff, passes_1 with (rest := rest), Hall. cbn [length]. lia. }
      apply IH. intros j Hj. apply (passes_S prev); [lia|].
      apply Hall. cbn [length] in *. lia.
Qed.

Lemma first_violation_none_iff (c : list Block) :
  first_violation c = Ok None <->
  forall i, (1 <= i < length c)%nat -> passes c i.
Proof.
  destruct c as [|genesis rest]; [|apply scan_none_iff].
  split; [|done]. cbn [length]. intros _ i Hi. lia.
Qed.

(** While the scan passes, it goes on with what follows. *)
Lemma scan_passing (i : nat) (prev : Block) (r1 r2 : list Block) :
  scan i prev r1 = Ok None ->
  scan i prev (r1 ++ r2) = scan (i + length r1) (default prev (last r1)) r2.
Proof.
  revert i prev. induction r1 as [|cur r1 IH]; intros i prev Hscan.
  - cbn [app length last default]. by rewrite Nat.add_0_r.
  - cbn [scan app] in *.
    destruct (check i prev cur) as [[d|]|e]; try discriminate.
    rewrite (IH _ _ Hscan). cbn [length]. rewrite Nat.add_succ_r. cbn [Nat.add].
    f_equal. destruct r1 as [|x r1]; [done|]. rewrite last_cons_cons.
    destruct (last (x :: r1)) eqn:Hlast; [done|]. by apply last_None in Hlast.
Qed.

(** The scan stops at the first position that fails a check: with the
    positions before it passing, the outcome is the one of that position,
    whatever follows. *)
Lemma first_violation_at (pre later : list Block) (prev cur : Block) :
  first_violation (pre ++ [prev]) = Ok None ->
  check (S (length pre)) prev cur <> Ok None ->
  first_violation (pre ++ prev :: cur :: later) = check (S (length pre)) prev cur.
Proof.
  intros Hpre Hcheck. destruct pre as [|genesis pre]; cbn [app first_violation length] in *.
  - cbn [scan]. by destruct (check 1 prev cur) as [[d|]|e].
  - replace (pre ++ prev :: cur :: later)%list with ((pre ++ [prev]) ++ cur :: later)%list
      by (by rewrite <- app_assoc).
    rewrite (scan_passing _ _ _ _ Hpre). rewrite last_snoc. cbn [default scan].
    rewrite length_app. cbn [length]. rewrite Nat.add_1_r. cbn [Nat.add]. unfold id.
    by destruct (check (S (S (length pre))) prev cur) as [[d|]|e].
Qed.

Lemma valid_state_passes (c : list Block) (i : nat) :
  valid_state c -> (1 <= i < length c)%nat -> passes c i.
Proof.
  intros [Hsealed Hlinked] Hi. destruct i as [|i]; [lia|].
  destruct (lookup_lt_is_Some_2 c (S i)) as [cur Hcur]; [lia|].
  destruct (lookup_lt_is_Some_2 c i) as [prev Hprev]; [lia|].
  exists cur, prev. rewrite Nat.sub_succ, Nat.sub_0_r. repeat split; eauto.
Qed.

Lemma valid_state_validates (w : world) :
  valid_state (chain w) -> validate_chain w = (Ok true, w).
Proof.
  intros Hv. rewrite validate_chain_verdict.
  assert (first_violation (chain w) = Ok None) as ->; [|done].
  apply first_violation_none_iff. intros i. by apply valid_state_passes.
Qed.

(** ** Creation and appends *)

Lemma new_ledger_eq (now : datetime) (out : list diagnostic) :
  exists g, new_ledger now out = World [g] out /\ sealed g /\
    g = mkBlock 0 now "GENESIS" "System" "Chain Initialized" (PDict []) "0" (hash g).
Proof.
  destruct (Block_init_ok 0 now "GENESIS" "System" "Chain Initialized" "0" PNone)
    as [g Hg]; [done|].
  exists g. unfold new_ledger, exec, OrderBlockchain_init, create_genesis_block,
    chain_append, bind, set_chain, get_chain, lift. cbn [fst snd chain console].
  rewrite Hg. cbn [fst snd chain console app].
  apply Block_init_sealed in Hg as [Hs Hg]. done.
Qed.

Lemma add_block_accepted oid loc act attrs now (w : world) (l : Block) :
  last (chain w) = Some l -> accepted attrs = true ->
  exists b,
    add_block oid loc act attrs now w = (Ok b, World (chain w ++ [b])%list (console w)) /\
    sealed b /\
    b = mkBlock (index l + 1) now oid loc act (py_or attrs (PDict [])) (hash l) (hash b).
Proof.
  intros Hl Hacc. apply last_Some in Hl as [c Hc].
  rewrite add_block_eq, Hc, list_getitem_last.
  destruct (Block_init_ok (index l + 1) now oid loc act (hash l) attrs Hacc) as [b Hb].
  rewrite Hb. exists b. split; [done|]. by apply Block_init_sealed in Hb.
Qed.

Lemma add_block_rejected oid loc act attrs now (w : world) (l : Block) :
  last (chain w) = Some l -> accepted attrs = false ->
  exists cls, cls ∈ opaque_classes (py_or attrs (PDict [])) /\
    add_block oid loc act attrs now w = (Raise (not_serializable cls), w).
Proof.
  intros Hl Hacc. apply last_Some in Hl as [c Hc].
  rewrite add_block_eq, Hc, list_getitem_last.
  destruct (Block_init_raise (index l + 1) now oid loc act (hash l) attrs Hacc)
    as [cls [Hcls ->]]. by exists cls.
Qed.

Lemma add_block_empty oid loc act attrs now (w : world) :
  chain w = [] ->
  add_block oid loc act attrs now w = (Raise (IndexError "list index out of range"), w).
Proof. intros Hc. by rewrite add_block_eq, Hc. Qed.

Lemma well_formed_nonempty (c : list Block) : well_formed c -> c <> [].
Proof. intros [[g [Hg _]] _] ->. done. Qed.

Lemma well_formed_new (now : datetime) (out : list diagnostic) :
  well_formed (chain (new_ledger now out)).
Proof.
  destruct (new_ledger_eq now out) as [g (-> & Hs & Hg)]. cbn [chain].
  split; [|split; [|split]].
  - exists g. rewrite Hg. done.
  - intros [|i] b; [|done]. intros [= <-]. by rewrite Hg.
  - intros [|i] b; [|done]. by intros [= <-].
  - intros [|i] b p; done.
Qed.

Lemma well_formed_snoc (c : list Block) (l b : Block) :
  well_formed c -> last c = Some l -> sealed b ->
  index b = (index l + 1)%Z -> previous_hash b = hash l ->
  well_formed (c ++ [b]).
Proof.
  intros (Hgen & Hidx & Hsealed & Hlinked) Hl Hs Hi Hp.
  assert (c <> []) as Hne by (intros ->; done).
  assert (0 < length c)%nat as Hlen by (destruct c; [done|cbn; lia]).
  rewrite last_lookup in Hl.
  split; [|split; [|split]].
  - destruct Hgen as [g [Hg ?]]. exists g. split; [|done]. by apply lookup_app_l_Some.
  - intros i x Hx. apply lookup_snoc_Some in Hx as [[_ Hx]|[-> <-]]; [by apply Hidx|].
    rewrite Hi, (Hidx _ _ Hl). lia.
  - intros i x Hx. apply lookup_snoc_Some in Hx as [[_ Hx]|[_ <-]]; [by eapply Hsealed|done].
  - intros i x p Hx Hprev.
    apply lookup_snoc_Some in Hx as [[Hlt Hx]|[Hi' <-]].
    + rewrite lookup_app_l in Hprev by lia. by eapply Hlinked.
    + rewrite lookup_app_l in Hprev by lia.
      replace i with (pred (length c)) in Hprev by lia. congruence.
Qed.

Lemma well_formed_append (w : world) (a : append_call) :
  well_formed (chain w) -> well_formed (chain (do_append w a)).
Proof.
  intros Hwf. pose proof (well_formed_nonempty _ Hwf) as Hne.
  apply last_is_Some in Hne as [l Hl]. unfold do_append, exec.
  destruct (accepted (call_data a)) eqn:Hacc.
  - destruct (add_block_accepted (call_order_id a) (call_location a) (call_action a)
                _ (call_now a) w l Hl Hacc) as (b & -> & Hs & Hb).
    cbn [snd chain]. apply (well_formed_snoc _ l b); try done; by rewrite Hb.
  - destruct (add_block_rejected (call_order_id a) (call_location a) (call_action a)
                _ (call_now a) w l Hl Hacc) as (cls & _ & ->). done.
Qed.

Lemma well_formed_ledger (now : datetime) (out : list diagnostic)
    (calls : list append_call) :
  well_formed (chain (ledger_after now out calls)).
Proof.
  unfold ledger_after. generalize (well_formed_new now out).
  generalize (new_ledger now out). induction calls as [|a calls IH]; intros w Hwf; [done|].
  cbn [fold_left]. by apply IH, well_formed_append.
Qed.

Lemma ledger_length (now : datetime) (out : list diagnostic) (calls : list append_call) :
  Forall (fun a => accepted (call_data a) = true) calls ->
  length (chain (ledger_after now out calls)) = S (length calls).
Proof.
  unfold ledger_after.
  assert (length (chain (new_ledger now out)) = 1%nat) as Hlen.
  { by destruct (new_ledger_eq now out) as [g [-> _]]. }
  generalize (well_formed_new now out). revert Hlen.
  generalize (new_ledger now out).
  enough (forall calls w n, length (chain w) = n -> well_formed (chain w) ->
            Forall (fun a => accepted (call_data a) = true) calls ->
            length (chain (fold_left do_append calls w)) = (n + length calls)%nat) as Hgen.
  { intros w Hlen Hwf Hall. by rewrite (Hgen calls w 1%nat). }
  clear. induction calls as [|a calls IH]; intros w n Hlen Hwf Hall.
  - cbn. lia.
  - apply Forall_cons in Hall as [Ha Hall]. cbn [fold_left length].
    rewrite (IH _ (S n)); [lia| |by apply well_formed_append|done].
    pose proof (well_formed_nonempty _ Hwf) as Hne.
    apply last_is_Some in Hne as [l Hl]. unfold do_append, exec.
    destruct (add_block_accepted (call_order_id a) (call_location a) (call_action a)
                _ (call_now a) w l Hl Ha) as (b & -> & _).
    cbn [snd chain]. rewrite length_app. cbn [length]. lia.
Qed.

(** ** Validation *)

Lemma outcome_validate_chain (w : world) :
  outcome validate_chain w = Ok true <-> first_violation (chain w) = Ok None.
Proof.
  unfold outcome. rewrite validate_chain_verdict.
  destruct (first_violation (chain w)) as [[d|]|e]; cbn [verdict fst]; split; congruence.
Qed.

Lemma check_prev_hash (i : nat) (p p' cur : Block) :
  hash p' = hash p -> check i p' cur = check i p cur.
Proof. intros Hh. unfold check. by rewrite Hh. Qed.

Lemma passes_prefix (pre : list Block) (prev : Block) :
  (forall j, (1 <= j <= length pre)%nat -> passes (pre ++ [prev]) j) ->
  first_violation (pre ++ [prev]) = Ok None.
Proof.
  intros Hall. apply first_violation_none_iff. intros i Hi. apply Hall.
  rewrite length_app in Hi. cbn [length] in Hi. lia.
Qed.

(** C1. [validate_chain] returns [True] if and only if every position from 1
    to length-1 passes both checks (the digest recomputed from the stored
    attributes equals the stored hash, and the stored previous hash equals the
    hash of the record before).  Positions are scanned in ascending order and the
    digest is checked before the link: when the positions before [cur] pass and
    [cur] fails, the call prints the diagnostic of [cur]'s position ("Hash
    mismatch" if the digest differs, whatever the link; "Chain broken" if only
    the link differs) and returns [False], whatever records [later] follow, so
    nothing after the first violation is looked at.  The record at position 0
    is read only for its hash, as the predecessor of position 1: its other
    attributes have no influence, and a chain of one record always validates. *)
Theorem validate_chain_spec :
  (forall w : world,
     outcome validate_chain w = Ok true <->
     forall i, (1 <= i < length (chain w))%nat -> passes (chain w) i) /\
  (forall (pre later : list Block) (prev cur : Block) (out : list diagnostic),
     (forall j, (1 <= j <= length pre)%nat -> passes (pre ++ [prev]) j) ->
     let w := World (pre ++ prev :: cur :: later) out in
     let i := S (length pre) in
     (forall h, calculate_hash cur = Ok h -> h <> hash cur ->
        validate_chain w = (Ok false, World (chain w) (out ++ [HashMismatch i]))) /\
     (sealed cur -> previous_hash cur <> hash prev ->
        validate_chain w = (Ok false, World (chain w) (out ++ [ChainBroken i])))) /\
  (forall (genesis genesis' : Block) (rest : list Block) (out : list diagnostic),
     hash genesis' = hash genesis ->
     outcome validate_chain (World (genesis' :: rest) out)
     = outcome validate_chain (World (genesis :: rest) out)) /\
  (forall (genesis : Block) (out : list diagnostic),
     validate_chain (World [genesis] out) = (Ok true, World [genesis] out)).
Proof.
  split; [|split; [|split]].
  - intros w. rewrite outcome_validate_chain. apply first_violation_none_iff.
  - intros pre later prev cur out Hpre w i. subst w i.
    apply passes_prefix in Hpre. split.
    + intros h Hh Hne. rewrite validate_chain_verdict. cbn [chain console].
      rewrite (first_violation_at pre later prev cur Hpre);
        rewrite (check_mismatch _ prev cur h Hh Hne). all: done.
    + intros Hs Hne. rewrite validate_chain_verdict. cbn [chain console].
      rewrite (first_violation_at pre later prev cur Hpre);
        rewrite (check_broken _ prev cur Hs Hne). all: done.
  - intros genesis genesis' rest out Hh. unfold outcome.
    rewrite !validate_chain_verdict. cbn [chain first_violation].
    destruct rest as [|cur rest]; [done|]. cbn [scan].
    rewrite (check_prev_hash 1 genesis genesis' cur Hh).
    by destruct (match check 1 genesis cur with
                 | Ok None => scan 2 cur rest
                 | r => r
                 end) as [[d|]|e].
  - intros genesis out. by rewrite validate_chain_verdict.
Qed.

(** C2. Every ledger obtained by creating a ledger and then performing any
    sequence of appends is non-empty; its first record has index 0, order id
    "GENESIS" and previous hash "0"; every record's index is its position;
    every record after the first carries the hash of the record before it; and
    [validate_chain] returns [True] (printing nothing).  An append whose
    attributes cannot be serialized raises and leaves the ledger as it was;
    when all attributes can be serialized every append adds one record. *)
Theorem ledger_invariants (now : datetime) (out : list diagnostic)
    (calls : list append_call) :
  let w := ledger_after now out calls in
  chain w <> [] /\
  (exists g, chain w !! 0%nat = Some g /\ index g = 0%Z /\ order_id g = "GENESIS"
             /\ previous_hash g = "0") /\
  (forall i b, chain w !! i = Some b -> index b = Z.of_nat i) /\
  (forall i b p, chain w !! S i = Some b -> chain w !! i = Some p ->
                 previous_hash b = hash p) /\
  validate_chain w = (Ok true, w) /\
  (Forall (fun a => accepted (call_data a) = true) calls ->
   length (chain w) = S (length calls)).
Proof.
  intros w. pose proof (well_formed_ledger now out calls) as Hwf. fold w in Hwf.
  pose proof (well_formed_nonempty _ Hwf) as Hne.
  destruct Hwf as (Hgen & Hidx & Hvalid).
  repeat split; try done.
  - apply Hvalid.
  - by apply valid_state_validates.
  - apply ledger_length.
Qed.

(** C5. On a non-empty ledger, [add_block] with attributes that can be
    serialized builds a record whose index is the last record's index plus 1
    and whose previous hash is the last record's hash, with the clock reading
    and the supplied order id, location, action and attributes (absent, or
    empty, attributes are stored as the empty dict); the record's hash is the
    digest of its attributes; the record becomes the last element of the chain,
    the records before it are unchanged, and the call returns it.  A ledger
    built by creation and appends is never empty. *)
Theorem add_block_spec (w : world) (oid loc act : string) (attrs : pyval)
    (now : datetime) :
  chain w <> [] -> accepted attrs = true ->
  (exists l b,
     last (chain w) = Some l /\
     add_block oid loc act attrs now w = (Ok b, World (chain w ++ [b]) (console w)) /\
     index b = (index l + 1)%Z /\ previous_hash b = hash l /\ timestamp b = now /\
     order_id b = oid /\ location b = loc /\ action b = act /\
     data b = py_or attrs (PDict []) /\
     (forall d, attrs = PDict d -> data b = PDict d) /\
     (attrs = PNone -> data b = PDict []) /\
     calculate_hash b = Ok (hash b) /\
     last (chain (exec (add_block oid loc act attrs now) w)) = Some b) /\
  (forall now0 out calls, chain (ledger_after now0 out calls) <> []).
Proof.
  intros Hne Hacc. split.
  - apply last_is_Some in Hne as [l Hl]. exists l.
    destruct (add_block_accepted oid loc act attrs now w l Hl Hacc) as (b & Hrun & Hs & Hb).
    exists b. unfold exec. rewrite Hrun. cbn [snd chain]. rewrite last_snoc.
    rewrite Hb. cbn [index previous_hash timestamp order_id location action data hash].
    repeat split; try done.
    + intros d ->. by destruct d.
    + by intros ->.
    + rewrite <- Hb. exact Hs.
  - intros now0 out calls. apply well_formed_nonempty, well_formed_ledger.
Qed.

(** ** Queries *)

Lemma sublist_into_filter {A : Type} (P : A -> Prop) `{!forall x, Decision (P x)}
    (l c : list A) :
  sublist l c -> Forall P l -> sublist l (filter P c).
Proof.
  induction 1 as [|x l c Hsub IH|x l c Hsub IH]; intros Hall.
  - constructor.
  - apply Forall_cons in Hall as [Hx Hall]. rewrite filter_cons_True by done.
    apply sublist_skip. by apply IH.
  - rewrite filter_cons. destruct (decide (P x)); [apply sublist_cons|]; by apply IH.
Qed.

Lemma StronglySorted_sublist {A : Type} (R : relation A) (l c : list A) :
  sublist l c -> StronglySorted R c -> StronglySorted R l.
Proof.
  induction 1 as [|x l c Hsub IH|x l c Hsub IH]; intros Hc.
  - constructor.
  - apply StronglySorted_inv in Hc as [Hc Hx]. constructor; [by apply IH|].
    rewrite Forall_forall in Hx |- *. intros y Hy. apply Hx.
    by apply (sublist_subseteq _ _ Hsub).
  - apply StronglySorted_inv in Hc as [Hc _]. by apply IH.
Qed.

Lemma positions_ascending (c : list Block) (k : Z) :
  (forall i b, c !! i = Some b -> index b = (k + Z.of_nat i)%Z) ->
  StronglySorted Z.lt (index <$> c).
Proof.
  revert k. induction c as [|x c IH]; intros k Hidx; [constructor|].
  cbn [fmap list_fmap]. constructor.
  - apply (IH (k + 1)%Z). intros i b Hb. rewrite (Hidx (S i) b Hb). lia.
  - apply Forall_forall. intros z Hz.
    apply list_elem_of_fmap in Hz as [b [-> Hb]].
    apply list_elem_of_lookup in Hb as [i Hb].
    rewrite (Hidx 0%nat x eq_refl), (Hidx (S i) b Hb). lia.
Qed.

(** C7. [get_order_journey k] returns records of the chain in chain order (a
    subsequence of the chain), each with order id [k], and all of them: a record
    is in the result exactly when it is in the chain with order id [k], and every
    subsequence of the chain made of records with order id [k] is a subsequence
    of the result.  The result is empty when no record has order id [k].  When
    every index is the position, the indices of the result are ascending.  The
    ledger and the console are left as they were. *)
Theorem get_order_journey_spec (w : world) (k : string) :
  exists r,
    get_order_journey k w = (Ok r, w) /\
    sublist r (chain w) /\
    (forall b, b ∈ r <-> b ∈ chain w /\ order_id b = k) /\
    (forall l, sublist l (chain w) -> Forall (fun b => order_id b = k) l -> sublist l r) /\
    ((forall b, b ∈ chain w -> order_id b <> k) -> r = []) /\
    ((forall i b, chain w !! i = Some b -> index b = Z.of_nat i) ->
     StronglySorted Z.lt (index <$> r)).
Proof.
  exists (filter (fun block => order_id block = k) (chain w)).
  split; [apply get_order_journey_eq|]. split; [apply sublist_filter|].
  split; [|split; [|split]].
  - intros b. rewrite list_elem_of_filter. tauto.
  - intros l. apply sublist_into_filter.
  - intros Hnone. induction (chain w) as [|x c IH]; [done|].
    rewrite filter_cons_False by (apply Hnone; by left).
    apply IH. intros b Hb. apply Hnone. by right.
  - intros Hidx. apply (StronglySorted_sublist _ _ (index <$> chain w)).
    + apply fmap_sublist, sublist_filter.
    + apply (positions_ascending _ 0). intros i b Hb. rewrite (Hidx i b Hb). lia.
Qed.

(** C8. [validate_chain] and [get_order_journey] leave the chain as it was
    (every record, every attribute, the length); [get_order_journey] prints
    nothing either.  [validate_chain] depends on the chain alone: called again,
    any number of times, with or without queries in between, it returns what it
    returned the first time. *)
Theorem readers_leave_chain (w : world) (k : string) :
  chain (exec validate_chain w) = chain w /\
  exec (get_order_journey k) w = w /\
  (forall w', chain w' = chain w ->
     outcome validate_chain w' = outcome validate_chain w) /\
  outcome validate_chain (exec validate_chain w) = outcome validate_chain w /\
  outcome validate_chain (exec (get_order_journey k) w) = outcome validate_chain w /\
  (forall n, validate_repeatedly n w = repeat (outcome validate_chain w) n).
Proof.
  assert (forall u, chain (exec validate_chain u) = chain u) as Hframe.
  { intros u. unfold exec. rewrite validate_chain_verdict.
    by destruct (first_violation (chain u)) as [[d|]|e]. }
  assert (forall u u', chain u' = chain u ->
            outcome validate_chain u' = outcome validate_chain u) as Hdet.
  { intros u u' Hc. unfold outcome. rewrite !validate_chain_verdict, Hc.
    by destruct (first_violation (chain u)) as [[d|]|e]. }
  repeat split; auto.
  intros n. revert w. induction n as [|n IH]; intros w; [done|].
  cbn [validate_repeatedly repeat]. f_equal. rewrite IH. f_equal. auto.
Qed.

(** C10. On a freshly created ledger, [get_order_journey "GENESIS"] returns
    the one-element list holding the genesis record. *)
Theorem genesis_journey (now : datetime) (out : list diagnostic) :
  exists g,
    chain (new_ledger now out) = [g] /\
    index g = 0%Z /\ order_id g = "GENESIS" /\ previous_hash g = "0" /\
    get_order_journey "GENESIS" (new_ledger now out) = (Ok [g], new_ledger now out).
Proof.
  destruct (new_ledger_eq now out) as [g (Hw & _ & Hg)]. exists g.
  rewrite get_order_journey_eq, Hw. cbn [chain]. rewrite Hg.
  cbn [index order_id previous_hash]. repeat split; try done.
Qed.

(** ** The digest as a function of the attributes *)

Lemma calculate_hash_ext (b1 b2 : Block) :
  index b1 = index b2 -> timestamp b1 = timestamp b2 -> order_id b1 = order_id b2 ->
  location b1 = location b2 -> action b1 = action b2 -> data b1 = data b2 ->
  previous_hash b1 = previous_hash b2 ->
  calculate_hash b1 = calculate_hash b2.
Proof. unfold calculate_hash. by intros -> -> -> -> -> -> ->. Qed.

Lemma calculate_hash_perm (b1 b2 : Block) (d1 d2 : list (string * pyval)) :
  index b1 = index b2 -> timestamp b1 = timestamp b2 -> order_id b1 = order_id b2 ->
  location b1 = location b2 -> action b1 = action b2 ->
  previous_hash b1 = previous_hash b2 ->
  data b1 = PDict d1 -> data b2 = PDict d2 ->
  NoDup (fst <$> d1) -> d1 ≡ₚ d2 ->
  calculate_hash b1 = calculate_hash b2.
Proof.
  intros Hi Ht Ho Hl Ha Hp Hd1 Hd2 Hnd Hperm. unfold calculate_hash.
  rewrite Hi, Ht, Ho, Hl, Ha, Hp, Hd1, Hd2.
  rewrite !(json_dumps_dict (("index", _) :: _)). cbn [map fst snd].
  by rewrite (json_dumps_dict_perm d1 d2 Hnd Hperm).
Qed.

Lemma py_or_dict (d : list (string * pyval)) : py_or (PDict d) (PDict []) = PDict d.
Proof. by destruct d. Qed.

(** C4. The digest is a function of the seven content attributes: records
    that agree on them have the same digest, whatever their stored hash.  Two
    records constructed with the same arguments, their attribute mappings
    holding the same items inserted in different orders, get the same hash (or
    fail with the same error).  Constructing a record without attributes gives
    the same record as constructing it with the empty mapping. *)
Theorem hash_function_of_attributes (i : Z) (ts : datetime)
    (oid loc act prev : string) (d1 d2 : list (string * pyval)) :
  NoDup (fst <$> d1) -> d1 ≡ₚ d2 ->
  (forall b1 b2 : Block,
     index b1 = index b2 -> timestamp b1 = timestamp b2 ->
     order_id b1 = order_id b2 -> location b1 = location b2 ->
     action b1 = action b2 -> data b1 = data b2 ->
     previous_hash b1 = previous_hash b2 ->
     calculate_hash b1 = calculate_hash b2) /\
  result_map hash (Block_init i ts oid loc act prev (PDict d1))
  = result_map hash (Block_init i ts oid loc act prev (PDict d2)) /\
  Block_init i ts oid loc act prev PNone = Block_init i ts oid loc act prev (PDict []).
Proof.
  intros Hnd Hperm. split; [exact calculate_hash_ext|]. split; [|done].
  rewrite !Block_init_eq, !py_or_dict.
  rewrite (calculate_hash_perm
             (mkBlock i ts oid loc act (PDict d1) prev "")
             (mkBlock i ts oid loc act (PDict d2) prev "") d1 d2); try done.
  by destruct (calculate_hash _).
Qed.

(** ** Tampering *)

Lemma setattr_restore (b : Block) (a : assignment) :
  setattr (setattr b a) (restore b a) = b.
Proof. by destruct b, a. Qed.

Lemma chain_setattr_eq (w : world) (i : nat) (b : Block) (a : assignment) :
  chain w !! i = Some b ->
  chain_setattr i a w = (Ok tt, World (<[i := setattr b a]> (chain w)) (console w)).
Proof.
  intros Hb. unfold chain_setattr, bind, get_chain, lift, set_chain.
  by rewrite (list_getitem_lookup _ _ _ Hb).
Qed.

Lemma chain_rehash_sealed (w : world) (i : nat) (b : Block) :
  chain w !! i = Some b -> sealed b -> chain_rehash i w = (Ok tt, w).
Proof.
  intros Hb Hs. unfold chain_rehash, bind, get_chain, lift, set_chain.
  rewrite (list_getitem_lookup _ _ _ Hb), Hs.
  replace (setattr b (SetHash (hash b))) with b by (by destruct b).
  rewrite (list_insert_id _ _ _ Hb). by destruct w.
Qed.

Lemma first_violation_prefix (l1 l2 : list Block) :
  first_violation (l1 ++ l2)%list = Ok None -> first_violation l1 = Ok None.
Proof.
  rewrite !first_violation_none_iff. intros Hall i Hi.
  destruct (Hall i) as (cur & prev & Hcur & Hprev & Hrest).
  { rewrite length_app. lia. }
  exists cur, prev. rewrite lookup_app_l in Hcur, Hprev by lia. done.
Qed.

(** A record at a position after 0, with the record before it. *)
Lemma lookup_with_predecessor (c : list Block) (i : nat) (b : Block) :
  (1 <= i)%nat -> c !! i = Some b ->
  exists pre prev later, c = (pre ++ prev :: b :: later)%list /\ i = S (length pre).
Proof.
  intros Hi Hb. apply list_elem_of_split_length in Hb as (l1 & later & -> & ->).
  destruct l1 as [|x l1 _] using rev_ind; [cbn in Hi; lia|].
  exists l1, x, later. rewrite <- app_assoc, length_app. cbn [length app].
  split; [done|lia].
Qed.

(** C3 (amended). On a ledger that validates, overwriting an attribute of a
    record at a position [i >= 1] so that the digest recomputed from the stored
    attributes differs from the stored hash makes [validate_chain] return
    [False] and print "Hash mismatch" for position [i].  Overwriting the stored
    hash itself with another value always does so. *)
Theorem tampering_detected (w : world) (i : nat) (b : Block) (a : assignment) :
  outcome validate_chain w = Ok true ->
  (1 <= i)%nat -> chain w !! i = Some b ->
  let w' := exec (chain_setattr i a) w in
  (forall h, calculate_hash (setattr b a) = Ok h -> h <> hash (setattr b a) ->
     validate_chain w' = (Ok false, World (chain w') (console w ++ [HashMismatch i])%list)) /\
  (forall v, a = SetHash v -> v <> hash b ->
     validate_chain w' = (Ok false, World (chain w') (console w ++ [HashMismatch i])%list)).
Proof.
  intros Hvalid Hi Hb w'. apply outcome_validate_chain in Hvalid.
  assert (forall h, calculate_hash (setattr b a) = Ok h -> h <> hash (setattr b a) ->
            validate_chain w' = (Ok false, World (chain w') (console w ++ [HashMismatch i])%list))
    as Hdetect.
  { intros h Hh Hne. subst w'. unfold exec. rewrite (chain_setattr_eq w i b a Hb).
    cbn [snd chain]. rewrite validate_chain_verdict. cbn [chain console].
    destruct (lookup_with_predecessor _ i b Hi Hb) as (pre & prev & later & Hc & ->).
    rewrite Hc in Hvalid |- *.
    replace (<[S (length pre) := setattr b a]> (pre ++ prev :: b :: later)%list)
      with (pre ++ prev :: setattr b a :: later)%list.
    2:{ replace (S (length pre)) with (length pre + 1)%nat by lia.
        by rewrite insert_app_r. }
    rewrite first_violation_at.
    - by rewrite (check_mismatch _ prev _ h Hh Hne).
    - apply (first_violation_prefix _ (b :: later)). by rewrite <- app_assoc.
    - by rewrite (check_mismatch _ prev _ h Hh Hne). }
  split; [exact Hdetect|].
  intros v -> Hv. apply (Hdetect (hash b)); [|cbn [setattr hash]; congruence].
  rewrite calculate_hash_ignores_hash.
  rewrite first_violation_none_iff in Hvalid.
  destruct (Hvalid i) as (cur & prev & Hcur & _ & Hs & _).
  { split; [done|]. by apply lookup_lt_Some in Hb. }
  congruence.
Qed.

(** C6. On a ledger in a valid state, overwriting an attribute of a stored
    record, then putting the original value back and recomputing the record's
    hash, leaves the ledger exactly as it was before the overwrite, and
    [validate_chain] returns [True]; so does it in any state with that chain. *)
Theorem restore_revalidates (w : world) (i : nat) (b : Block) (a : assignment) :
  valid_state (chain w) -> chain w !! i = Some b ->
  let w1 := exec (chain_setattr i a) w in
  let w2 := exec (chain_setattr i (restore b a)) w1 in
  let w3 := exec (chain_rehash i) w2 in
  w3 = w /\
  validate_chain w3 = (Ok true, w3) /\
  (forall u, chain u = chain w3 -> outcome validate_chain u = Ok true).
Proof.
  intros Hvalid Hb w1 w2 w3.
  assert (i < length (chain w))%nat as Hlen by (by apply lookup_lt_Some in Hb).
  assert (w2 = w) as Hw2.
  { subst w2 w1. unfold exec. rewrite (chain_setattr_eq w i b a Hb). cbn [snd].
    rewrite (chain_setattr_eq _ i (setattr b a)).
    2:{ cbn [chain]. by apply list_lookup_insert_eq. }
    cbn [snd chain console]. rewrite setattr_restore, list_insert_insert_eq.
    rewrite (list_insert_id _ _ _ Hb). by destruct w. }
  assert (w3 = w) as Hw3.
  { subst w3. rewrite Hw2. unfold exec.
    rewrite (chain_rehash_sealed w i b Hb); [done|]. destruct Hvalid as [Hs _]. eauto. }
  rewrite Hw3. split; [done|]. split; [by apply valid_state_validates|].
  intros u Hu. unfold outcome. rewrite valid_state_validates; [done|]. by rewrite Hu.
Qed.

(** ** Attributes that cannot be serialized *)

Lemma Block_init_error (attrs : pyval) (e : exn) :
  json_dumps (py_or attrs (PDict [])) = Raise e ->
  forall i ts oid loc act prev, Block_init i ts oid loc act prev attrs = Raise e.
Proof.
  intros He i ts oid loc act prev. rewrite Block_init_eq.
  pose proof (calculate_hash_data
                (mkBlock i ts oid loc act (py_or attrs (PDict [])) prev "")) as Hc.
  cbn [data] in Hc. rewrite He in Hc. by rewrite Hc.
Qed.

Lemma dict_with_object_rejected (d : list (string * pyval)) k cls truth :
  (k, PObj cls truth) ∈ d -> accepted (PDict d) = false.
Proof.
  intros Hin. unfold accepted. rewrite py_or_dict.
  destruct (serializable (PDict d)) eqn:Hser; [|done].
  cbn [serializable] in Hser. rewrite forallb_forall in Hser.
  apply list_elem_of_In in Hin. by apply Hser in Hin.
Qed.

(** C9 (amended). Constructing a record whose attribute mapping holds, under
    some key, an object [json] has no encoding for fails at construction: the
    result is the serializer's [TypeError], whose message names the class of
    such an object in the mapping (the key is not part of it), and no record is
    built; [add_block] raises the same error and leaves the ledger and the
    console as they were.  A record whose construction succeeds stores the
    attributes it was given (an argument that is false, as [None] or an empty
    container, is stored as the empty dict), they can be serialized, and
    recomputing its hash gives the stored hash. *)
Theorem construction_rejects_unserializable (attrs : pyval) :
  (forall d k cls truth,
     attrs = PDict d -> (k, PObj cls truth) ∈ d -> accepted attrs = false) /\
  (accepted attrs = false ->
   exists cls,
     cls ∈ opaque_classes (py_or attrs (PDict [])) /\
     (forall i ts oid loc act prev,
        Block_init i ts oid loc act prev attrs = Raise (not_serializable cls)) /\
     (forall w oid loc act now, chain w <> [] ->
        add_block oid loc act attrs now w = (Raise (not_serializable cls), w))) /\
  (forall i ts oid loc act prev b,
     Block_init i ts oid loc act prev attrs = Ok b ->
     accepted attrs = true /\
     data b = py_or attrs (PDict []) /\
     calculate_hash b = Ok (hash b)).
Proof.
  split; [|split].
  - intros d k cls truth ->. apply dict_with_object_rejected.
  - intros Hacc. destruct (json_dumps_not_ok _ Hacc) as [e He].
    destruct (json_dumps_raise _ _ He) as [cls [Hcls ->]].
    exists cls. split; [done|]. split; [by apply Block_init_error|].
    intros w oid loc act now Hne. apply last_is_Some in Hne as [l Hl].
    apply last_Some in Hl as [c Hc].
    rewrite add_block_eq, Hc, list_getitem_last.
    by rewrite (Block_init_error attrs _ He).
  - intros i ts oid loc act prev b Hb. split.
    + destruct (accepted attrs) eqn:Hacc; [done|].
      destruct (Block_init_raise i ts oid loc act prev attrs Hacc) as [cls [_ Hr]].
      congruence.
    + apply Block_init_sealed in Hb as [Hs Hb]. split; [by rewrite Hb|exact Hs].
Qed.

(** ** The properties on the scenario *)

Example sha256_abc :
  sha256_hexdigest "abc"
  = "ba7816bf8f01cfea414140de5dae2223b00361a396177a9cb410ff61f20015ad".
Proof. vm_compute. reflexivity. Qed.

Example sha256_two_blocks :
  sha256_hexdigest "abcdbcdecdefdefgefghfghighijhijkijkljklmklmnlmnomnopnopq"
  = "248d6a61d20638b8e5c026930c3e6039a33ce45964ff2167f6ecedd419db06c1".
Proof. vm_compute. reflexivity. Qed.

Example scenario_hashes :
  hash <$> chain scenario
  = [ "64614ba3bbd558146c36d802ce73bb0bf41b22f311b842ac7a07ae8766f2021c";
      "fc1a0f598d614d681ed2e5d95b4ec634b5eed159a2cbd683e0c8ecd9e542bb23";
      "70042f98f595e6a3b70f1351a9b4e15bff7a869119607adbd6b802a780d351ad" ].
Proof. vm_compute. reflexivity. Qed.

(** The scenario validates; the second appended record with its action
    overwritten is reported at position 2, as a hash mismatch. *)
Lemma validate_chain_spec_witness :
  outcome validate_chain scenario = Ok true /\
  exists g b1 b2,
    chain scenario = [g; b1; b2] /\
    validate_chain (World [g; b1; setattr b2 (SetAction "PACKAGE LOST")] [])
    = (Ok false,
       World [g; b1; setattr b2 (SetAction "PACKAGE LOST")] [HashMismatch 2]).
Proof.
  split.
  - apply (proj1 validate_chain_spec scenario).
    intros i Hi. apply valid_state_passes; [|exact Hi].
    apply (well_formed_ledger scenario_clock [] _).
  - eexists _, _, _. split; [vm_compute; reflexivity|].
    refine (proj1 (proj1 (proj2 validate_chain_spec) [_] [] _ _ [] _) _ _ _).
    + intros j Hj. assert (j = 1%nat) as -> by (cbn [length] in Hj; lia).
      eexists _, _. repeat split; vm_compute; reflexivity.
    + vm_compute. reflexivity.
    + vm_compute. discriminate.
Defined.

(** C3, refuted as stated: on the scenario, a ledger in a valid state,
    overwriting the action of the genesis record (position 0) changes that
    record, and [validate_chain] still returns [True] and prints nothing. *)
Lemma tampered_genesis_undetected :
  let w := exec (chain_setattr 0 (SetAction "PACKAGE LOST")) scenario in
  valid_state (chain scenario) /\
  outcome validate_chain scenario = Ok true /\
  (exists g, chain scenario !! 0%nat = Some g /\
             chain w !! 0%nat = Some (setattr g (SetAction "PACKAGE LOST")) /\
             action g = "Chain Initialized") /\
  validate_chain w = (Ok true, w).
Proof.
  split; [exact (proj2 (proj2 (well_formed_ledger scenario_clock [] _)))|].
  split; [vm_compute; reflexivity|].
  split.
  { eexists. split; [vm_compute; reflexivity|]. split; vm_compute; reflexivity. }
  vm_compute. reflexivity.
Qed.

Lemma tampering_detected_witness :
  let w' := exec (chain_setattr 2 (SetAction "PACKAGE LOST")) scenario in
  validate_chain w'
  = (Ok false, World (chain w') (console scenario ++ [HashMismatch 2])%list).
Proof.
  refine (proj1 (tampering_detected scenario 2 _ (SetAction "PACKAGE LOST") _ _ _) _ _ _).
  - vm_compute. reflexivity.
  - lia.
  - vm_compute. reflexivity.
  - vm_compute. reflexivity.
  - vm_compute. discriminate.
Defined.

Lemma hash_function_of_attributes_witness :
  result_map hash
    (Block_init 1 scenario_clock "12345" "Brisbane Office" "Order Received" "0"
       (PDict [("customer", PStr "Ana"); ("product", PStr "Laptop")]))
  = result_map hash
      (Block_init 1 scenario_clock "12345" "Brisbane Office" "Order Received" "0"
         (PDict [("product", PStr "Laptop"); ("customer", PStr "Ana")])).
Proof.
  refine (proj1 (proj2 (hash_function_of_attributes 1 scenario_clock
            "12345" "Brisbane Office" "Order Received" "0"
            [("customer", PStr "Ana"); ("product", PStr "Laptop")]
            [("product", PStr "Laptop"); ("customer", PStr "Ana")] _ _))).
  - by apply (bool_decide_unpack _).
  - apply perm_swap.
Defined.

Lemma add_block_spec_witness :
  exists l b,
    last (chain scenario) = Some l /\
    add_block "A1" "Loc3" "Delivered" (PDict [("recipient", PStr "Ana")])
              scenario_clock scenario
    = (Ok b, World (chain scenario ++ [b]) (console scenario)) /\
    index b = 3%Z /\ previous_hash b = hash l.
Proof.
  pose proof (add_block_spec scenario "A1" "Loc3" "Delivered"
                (PDict [("recipient", PStr "Ana")]) scenario_clock) as H.
  assert (chain scenario <> []) as Hne by (vm_compute; discriminate).
  assert (accepted (PDict [("recipient", PStr "Ana")]) = true) as Hacc by reflexivity.
  specialize (H Hne Hacc).
  destruct H as [(l & b & Hl & Hrun & Hi & Hp & _) _].
  exists l, b.
  split; [exact Hl|]. split; [exact Hrun|]. split; [|exact Hp].
  rewrite Hi.
  assert (last (chain scenario) = Some l -> index l = 2%Z) as Hidx.
  { vm_compute. by intros [= <-]. }
  rewrite (Hidx Hl). reflexivity.
Defined.

Lemma restore_revalidates_witness :
  exists b,
    chain scenario !! 2%nat = Some b /\
    let w1 := exec (chain_setattr 2 (SetAction "PACKAGE LOST")) scenario in
    let w2 := exec (chain_setattr 2 (restore b (SetAction "PACKAGE LOST"))) w1 in
    let w3 := exec (chain_rehash 2) w2 in
    w3 = scenario /\ validate_chain w3 = (Ok true, w3).
Proof.
  eexists. split; [vm_compute; reflexivity|].
  refine (let H := restore_revalidates scenario 2 _ (SetAction "PACKAGE LOST") _ _ in
          conj (proj1 H) (proj1 (proj2 H))).
  - apply (well_formed_ledger scenario_clock [] _).
  - vm_compute. reflexivity.
Defined.

(** C9, refuted as stated: the error raised for an attribute that cannot be
    serialized is the same whichever key holds it, so it does not identify the
    key. *)
Lemma construction_error_hides_key :
  Block_init 1 scenario_clock "12345" "Brisbane Office" "Order Received" "0"
    (PDict [("customer", PObj "set" true)])
  = Raise (TypeError "Object of type set is not JSON serializable") /\
  Block_init 1 scenario_clock "12345" "Brisbane Office" "Order Received" "0"
    (PDict [("product", PObj "set" true)])
  = Raise (TypeError "Object of type set is not JSON serializable").
Proof. split; vm_compute; reflexivity. Qed.

Lemma construction_rejects_unserializable_witness :
  exists cls,
    Block_init 1 scenario_clock "12345" "Brisbane Office" "Order Received" "0"
      (PDict [("customer", PStr "Ana"); ("basket", PObj "set" true)])
    = Raise (not_serializable cls) /\
    add_block "12345" "Brisbane Office" "Order Received"
      (PDict [("customer", PStr "Ana"); ("basket", PObj "set" true)])
      scenario_clock scenario
    = (Raise (not_serializable cls), scenario).
Proof.
  destruct (proj1 (proj2 (construction_rejects_unserializable
              (PDict [("customer", PStr "Ana"); ("basket", PObj "set" true)]))))
    as (cls & _ & Hinit & Hadd); [reflexivity|].
  exists cls. split; [apply Hinit|]. apply Hadd. vm_compute. discriminate.
Defined.

(** * Further properties of the ledger *)

(** ** Reading the last record, appending *)

Lemma get_latest_block_eq (w : world) :
  get_latest_block w
  = match list_getitem (chain w) (-1) with
    | Ok l => (Ok l, w)
    | Raise e => (Raise e, w)
    end.
Proof.
  unfold get_latest_block, bind, get_chain, lift.
  by destruct (list_getitem (chain w) (-1)).
Qed.

(** X1. [get_latest_block] returns the last record of the chain and changes
    nothing; on an empty chain it raises [IndexError].  Right after a call of
    [add_block] that returned, it returns the record that call returned. *)
Theorem get_latest_block_spec (w : world) :
  (chain w = [] ->
   get_latest_block w = (Raise (IndexError "list index out of range"), w)) /\
  (forall l, last (chain w) = Some l -> get_latest_block w = (Ok l, w)) /\
  (forall oid loc act attrs now b w',
     add_block oid loc act attrs now w = (Ok b, w') ->
     get_latest_block w' = (Ok b, w')).
Proof.
  split; [|split].
  - intros Hc. by rewrite get_latest_block_eq, Hc.
  - intros l Hl. apply last_Some in Hl as [c Hc].
    by rewrite get_latest_block_eq, Hc, list_getitem_last.
  - intros oid loc act attrs now b w'. rewrite add_block_eq.
    destruct (list_getitem (chain w) (-1)) as [l|e]; [|discriminate].
    destruct (Block_init _ _ _ _ _ _ _) as [b'|e]; [|discriminate].
    intros [= -> <-]. rewrite get_latest_block_eq. cbn [chain].
    by rewrite list_getitem_last.
Qed.

(** X2. [add_block] is all or nothing.  On an empty chain it raises
    [IndexError] (whatever the attributes); on a non-empty chain with
    attributes that cannot be serialized it raises the serializer's
    [TypeError]; in both cases the chain and the console are exactly as
    before.  Otherwise it returns a sealed record linked to the former last
    record, and the chain is the former chain followed by that record. *)
Theorem add_block_all_or_nothing (w : world) (oid loc act : string)
    (attrs : pyval) (now : datetime) :
  (chain w = [] /\
   add_block oid loc act attrs now w
   = (Raise (IndexError "list index out of range"), w)) \/
  (exists cls,
     chain w <> [] /\ accepted attrs = false /\
     cls ∈ opaque_classes (py_or attrs (PDict [])) /\
     add_block oid loc act attrs now w = (Raise (not_serializable cls), w)) \/
  (exists l b,
     last (chain w) = Some l /\ accepted attrs = true /\
     add_block oid loc act attrs now w
     = (Ok b, World (chain w ++ [b]) (console w)) /\
     sealed b /\ previous_hash b = hash l).
Proof.
  destruct (chain w) as [|x c] eqn:Hc.
  - left. split; [done|]. by apply add_block_empty.
  - right. assert (chain w <> []) as Hne by (by rewrite Hc).
    rewrite <- Hc. apply last_is_Some in Hne as [l Hl].
    destruct (accepted attrs) eqn:Hacc.
    + right. exists l.
      destruct (add_block_accepted oid loc act attrs now w l Hl Hacc)
        as (b & Hrun & Hs & Hb).
      exists b. repeat split; try done. by rewrite Hb.
    + left.
      destruct (add_block_rejected oid loc act attrs now w l Hl Hacc)
        as (cls & Hcls & Hrun).
      exists cls. repeat split; try done. intros Hnil. by rewrite Hnil in Hl.
Qed.

(** ** What validation sees after an append, a truncation, a removal *)

(** Once the scan has found a violation, or raised, what follows is not read. *)
Lemma scan_failing (i : nat) (prev : Block) (r1 r2 : list Block) :
  scan i prev r1 <> Ok None -> scan i prev (r1 ++ r2) = scan i prev r1.
Proof.
  revert i prev. induction r1 as [|cur r1 IH]; intros i prev Hscan; [done|].
  cbn [scan app] in *.
  destruct (check i prev cur) as [[d|]|e]; try done. by apply IH.
Qed.

Lemma outcome_verdict (w w' : world) (r : result (option diagnostic)) :
  fst (verdict w r) = fst (verdict w' r).
Proof. by destruct r as [[d|]|e]. Qed.

Lemma first_violation_snoc (c : list Block) (l b : Block) :
  last c = Some l -> sealed b -> previous_hash b = hash l ->
  first_violation (c ++ [b]) = first_violation c.
Proof.
  intros Hl Hs Hp. destruct c as [|genesis rest]; [done|].
  cbn [app first_violation].
  assert (scan 1 genesis rest = Ok None \/ scan 1 genesis rest <> Ok None)
    as [Hnone|Hviol] by (destruct (scan 1 genesis rest) as [[d|]|e]; auto).
  - rewrite (scan_passing _ _ _ _ Hnone), Hnone. cbn [scan].
    assert (default genesis (last rest) = l) as ->.
    { destruct rest as [|x rest]; [by injection Hl|].
      rewrite last_cons_cons in Hl. by rewrite Hl. }
    assert (check (1 + length rest) l b = Ok None) as ->; [|done].
    by apply check_pass_iff.
  - by apply scan_failing.
Qed.

(** X3. A call of [add_block] that returns does not change what
    [validate_chain] returns: [True] stays [True], [False] stays [False] (the
    same first violation is found), and an exception stays that exception. *)
Theorem append_keeps_verdict (w w' : world) (oid loc act : string)
    (attrs : pyval) (now : datetime) (b : Block) :
  add_block oid loc act attrs now w = (Ok b, w') ->
  outcome validate_chain w' = outcome validate_chain w /\
  first_violation (chain w') = first_violation (chain w).
Proof.
  intros Hrun.
  destruct (add_block_all_or_nothing w oid loc act attrs now)
    as [[_ Hr]|[(cls & _ & _ & _ & Hr)|(l & b' & Hl & _ & Hr & Hs & Hp)]];
    rewrite Hr in Hrun; try discriminate.
  injection Hrun as <- <-. cbn [chain].
  assert (first_violation (chain w ++ [b']) = first_violation (chain w)) as Hsame
    by (by apply (first_violation_snoc _ l)).
  split; [|done]. unfold outcome. rewrite !validate_chain_verdict. cbn [chain].
  rewrite Hsame. apply outcome_verdict.
Qed.

(** X4. Dropping records from the end of the chain cannot be seen by
    [validate_chain]: when it returns [True] on a chain, it returns [True]
    (and prints nothing) on every initial part of that chain. *)
Theorem truncation_undetected (c1 c2 : list Block) (out : list diagnostic) :
  outcome validate_chain (World (c1 ++ c2) out) = Ok true ->
  validate_chain (World c1 out) = (Ok true, World c1 out).
Proof.
  intros Hvalid. apply outcome_validate_chain in Hvalid. cbn [chain] in Hvalid.
  rewrite validate_chain_verdict. cbn [chain].
  by rewrite (first_violation_prefix _ _ Hvalid).
Qed.

(** X5. Removing a record from inside the chain is seen as a broken link:
    when [validate_chain] returns [True] on a chain, removing a record [x]
    that has a successor and whose hash differs from the hash of the record
    before it makes [validate_chain] return [False] and print "Chain broken"
    for the position where the successor now stands. *)
Theorem removal_breaks_link (pre later : list Block) (prev x nxt : Block)
    (out : list diagnostic) :
  outcome validate_chain (World (pre ++ prev :: x :: nxt :: later) out) = Ok true ->
  hash x <> hash prev ->
  validate_chain (World (pre ++ prev :: nxt :: later) out)
  = (Ok false,
     World (pre ++ prev :: nxt :: later) (out ++ [ChainBroken (S (length pre))])).
Proof.
  intros Hvalid Hne. apply outcome_validate_chain in Hvalid. cbn [chain] in Hvalid.
  assert (sealed nxt /\ previous_hash nxt = hash x) as [Hs Hp].
  { rewrite first_violation_none_iff in Hvalid.
    destruct (Hvalid (S (S (length pre)))) as (cur & p & Hcur & Hprev & Hsp).
    { rewrite length_app. cbn [length]. lia. }
    rewrite Nat.sub_succ, Nat.sub_0_r in Hprev.
    replace (pre ++ prev :: x :: nxt :: later)%list
      with ((pre ++ [prev]) ++ x :: nxt :: later)%list in Hcur, Hprev
      by (by rewrite <- app_assoc).
    assert (length (pre ++ [prev]) = S (length pre)) as Hlen
      by (rewrite length_app; cbn; lia).
    rewrite lookup_app_r in Hcur, Hprev by lia.
    rewrite Hlen in Hcur, Hprev.
    replace (S (S (length pre)) - S (length pre))%nat with 1%nat in Hcur by lia.
    rewrite Nat.sub_diag in Hprev. cbn in Hcur, Hprev.
    injection Hcur as <-. injection Hprev as <-. exact Hsp. }
  assert (check (S (length pre)) prev nxt = Ok (Some (ChainBroken (S (length pre)))))
    as Hcheck by (apply check_broken; congruence).
  rewrite validate_chain_verdict. cbn [chain console].
  rewrite first_violation_at, Hcheck; [done| |by rewrite Hcheck].
  apply (first_violation_prefix _ (x :: nxt :: later)). by rewrite <- app_assoc.
Qed.

(** ** Queries after an append *)

(** X6. After a call of [add_block] that returned the record [b], the
    journey of the order id that was passed is the former journey followed by
    [b], and the journey of every other order id is as before. *)
Theorem journey_after_append (w w' : world) (oid loc act : string)
    (attrs : pyval) (now : datetime) (b : Block) (k : string) :
  add_block oid loc act attrs now w = (Ok b, w') ->
  exists r,
    get_order_journey k w = (Ok r, w) /\
    get_order_journey k w'
    = (Ok (if bool_decide (oid = k) then (r ++ [b])%list else r), w').
Proof.
  intros Hrun. rewrite add_block_eq in Hrun.
  destruct (list_getitem (chain w) (-1)) as [l|e]; [|discriminate].
  destruct (Block_init _ _ _ _ _ _ _) as [b'|e] eqn:Hinit; [|discriminate].
  injection Hrun as -> <-. apply Block_init_sealed in Hinit as [_ Hb].
  eexists. split; [apply get_order_journey_eq|].
  rewrite get_order_journey_eq. cbn [chain]. rewrite filter_app. f_equal. f_equal.
  assert (order_id b = oid) as Hoid by (by rewrite Hb).
  rewrite filter_cons, filter_nil.
  case_bool_decide as Hk; destruct (decide (order_id b = k)) as [Hb'|Hb'];
    try congruence. by rewrite app_nil_r.
Qed.

(** ** Overwriting a record and recomputing its hash *)

Lemma sealed_rehash (x : Block) (h : string) :
  calculate_hash x = Ok h -> sealed (setattr x (SetHash h)).
Proof. intros Hh. unfold sealed. by rewrite calculate_hash_ignores_hash, Hh. Qed.

Lemma tamper_rehash_eq (w : world) (i : nat) (b : Block) (a : assignment) (h : string) :
  chain w !! i = Some b -> calculate_hash (setattr b a) = Ok h ->
  exec (chain_rehash i) (exec (chain_setattr i a) w)
  = World (<[i := setattr (setattr b a) (SetHash h)]> (chain w)) (console w).
Proof.
  intros Hb Hh. unfold exec at 2. rewrite (chain_setattr_eq w i b a Hb). cbn [snd].
  assert (i < length (chain w))%nat as Hlen by (by apply lookup_lt_Some in Hb).
  unfold exec, chain_rehash, bind, get_chain, lift, set_chain. cbn [chain console].
  rewrite (list_getitem_lookup _ i (setattr b a)) by (by apply list_lookup_insert_eq).
  rewrite Hh. cbn [snd]. by rewrite list_insert_insert_eq.
Qed.

(** A passing chain still passes when its last record is replaced by a
    sealed record with the same previous hash. *)
Lemma first_violation_reseal (pre : list Block) (b b' : Block) :
  first_violation (pre ++ [b]) = Ok None ->
  sealed b' -> previous_hash b' = previous_hash b ->
  first_violation (pre ++ [b']) = Ok None.
Proof.
  intros Hvalid Hs Hp. destruct pre as [|genesis rest]; [done|].
  cbn [app first_violation] in *.
  assert (scan 1 genesis rest = Ok None) as Hrest.
  { destruct (scan 1 genesis rest) as [[d|]|e] eqn:Hscan; [|done|];
      rewrite scan_failing in Hvalid by (by rewrite Hscan); congruence. }
  rewrite (scan_passing _ _ rest [b] Hrest) in Hvalid.
  rewrite (scan_passing _ _ rest [b'] Hrest). cbn [scan] in *.
  destruct (check _ _ b) as [[d|]|e] eqn:Hcheck; try discriminate.
  apply check_pass_iff in Hcheck as [_ Hlink].
  assert (check (1 + length rest) (default genesis (last rest)) b' = Ok None) as ->;
    [|done].
  apply check_pass_iff. split; [done|congruence].
Qed.

(** X7. Overwriting an attribute of the last record (the previous hash
    apart) and recomputing that record's hash gives a chain on which
    [validate_chain] returns [True] again: a forged last record is not
    detected once it is rehashed. *)
Theorem rehashed_last_record_validates (w : world) (i : nat) (b : Block)
    (a : assignment) (h : string) :
  outcome validate_chain w = Ok true ->
  chain w !! i = Some b -> S i = length (chain w) ->
  previous_hash (setattr b a) = previous_hash b ->
  calculate_hash (setattr b a) = Ok h ->
  let w' := exec (chain_rehash i) (exec (chain_setattr i a) w) in
  chain w' = <[i := setattr (setattr b a) (SetHash h)]> (chain w) /\
  validate_chain w' = (Ok true, w').
Proof.
  intros Hvalid Hb Hlast Hp Hh w'. subst w'.
  rewrite (tamper_rehash_eq w i b a h Hb Hh). cbn [chain]. split; [done|].
  rewrite validate_chain_verdict. cbn [chain].
  apply outcome_validate_chain in Hvalid.
  apply list_elem_of_split_length in Hb as (pre & rest & Hc & ->).
  rewrite Hc in Hvalid, Hlast |- *.
  assert (rest = []) as ->.
  { rewrite length_app in Hlast. cbn [length] in Hlast.
    destruct rest; [done|cbn [length] in Hlast; lia]. }
  replace (<[length pre := setattr (setattr b a) (SetHash h)]> (pre ++ [b])%list)
    with (pre ++ [setattr (setattr b a) (SetHash h)])%list.
  2:{ replace (length pre) with (length pre + 0)%nat at 1 by lia.
      by rewrite insert_app_r. }
  rewrite (first_violation_reseal pre b); [done|done|by apply sealed_rehash|].
  exact Hp.
Qed.

(** X8. Overwriting an attribute of a record that has a successor (the
    previous hash apart) and recomputing that record's hash, so that its hash
    changes, makes [validate_chain] return [False] and print "Chain broken"
    for the successor's position.  This holds for the genesis record too. *)
Theorem rehashed_record_breaks_successor (w : world) (i : nat) (b : Block)
    (a : assignment) (h : string) :
  outcome validate_chain w = Ok true ->
  chain w !! i = Some b -> (S i < length (chain w))%nat ->
  previous_hash (setattr b a) = previous_hash b ->
  calculate_hash (setattr b a) = Ok h -> h <> hash b ->
  let w' := exec (chain_rehash i) (exec (chain_setattr i a) w) in
  validate_chain w'
  = (Ok false, World (chain w') (console w ++ [ChainBroken (S i)])%list).
Proof.
  intros Hvalid Hb Hlen Hp Hh Hne w'. subst w'.
  rewrite (tamper_rehash_eq w i b a h Hb Hh).
  rewrite validate_chain_verdict. cbn [chain console].
  apply outcome_validate_chain in Hvalid.
  apply list_elem_of_split_length in Hb as (pre & rest & Hc & ->).
  rewrite Hc in Hvalid, Hlen |- *.
  destruct rest as [|nxt later].
  { rewrite length_app in Hlen. cbn [length] in Hlen. lia. }
  replace (<[length pre := setattr (setattr b a) (SetHash h)]> (pre ++ b :: nxt :: later)%list)
    with (pre ++ setattr (setattr b a) (SetHash h) :: nxt :: later)%list.
  2:{ replace (length pre) with (length pre + 0)%nat at 1 by lia.
      by rewrite insert_app_r. }
  assert (sealed nxt /\ previous_hash nxt = hash b) as [Hs Hl].
  { rewrite first_violation_none_iff in Hvalid.
    destruct (Hvalid (S (length pre))) as (cur & p & Hcur & Hprev & Hsp).
    { rewrite length_app. cbn [length]. lia. }
    rewrite Nat.sub_succ, Nat.sub_0_r in Hprev.
    rewrite list_lookup_middle in Hprev by done.
    rewrite lookup_app_r in Hcur by lia.
    replace (S (length pre) - length pre)%nat with 1%nat in Hcur by lia.
    cbn in Hcur. injection Hcur as <-. injection Hprev as <-. exact Hsp. }
  assert (check (S (length pre)) (setattr (setattr b a) (SetHash h)) nxt
          = Ok (Some (ChainBroken (S (length pre))))) as Hcheck.
  { apply check_broken; [done|]. cbn [setattr hash]. congruence. }
  rewrite first_violation_at, Hcheck; [done| |by rewrite Hcheck].
  apply (first_violation_reseal pre b); [|by apply sealed_rehash|exact Hp].
  apply (first_violation_prefix _ (nxt :: later)). by rewrite <- app_assoc.
Qed.

(** X9. Overwriting the attributes of a record after the genesis with a
    value that cannot be serialized makes [validate_chain] raise the
    serializer's [TypeError] instead of returning [False]; nothing is
    printed. *)
Theorem unserializable_tamper_raises (w : world) (i : nat) (b : Block) (v : pyval) :
  outcome validate_chain w = Ok true ->
  (1 <= i)%nat -> chain w !! i = Some b -> serializable v = false ->
  exists cls,
    cls ∈ opaque_classes v /\
    let w' := exec (chain_setattr i (SetData v)) w in
    validate_chain w' = (Raise (not_serializable cls), w').
Proof.
  intros Hvalid Hi Hb Hser.
  destruct (json_dumps_not_ok v Hser) as [e He].
  destruct (json_dumps_raise v e He) as [cls [Hcls ->]].
  exists cls. split; [done|]. intros w'. subst w'.
  unfold exec. rewrite (chain_setattr_eq w i b _ Hb). cbn [snd].
  rewrite validate_chain_verdict. cbn [chain].
  apply outcome_validate_chain in Hvalid.
  destruct (lookup_with_predecessor _ i b Hi Hb) as (pre & prev & later & Hc & ->).
  rewrite Hc in Hvalid |- *.
  replace (<[S (length pre) := setattr b (SetData v)]> (pre ++ prev :: b :: later)%list)
    with (pre ++ prev :: setattr b (SetData v) :: later)%list.
  2:{ replace (S (length pre)) with (length pre + 1)%nat by lia.
      by rewrite insert_app_r. }
  assert (check (S (length pre)) prev (setattr b (SetData v))
          = Raise (not_serializable cls)) as Hcheck.
  { apply check_raise.
    pose proof (calculate_hash_data (setattr b (SetData v))) as Hd.
    cbn [setattr data] in Hd. by rewrite He in Hd. }
  rewrite first_violation_at, Hcheck; [done| |by rewrite Hcheck].
  apply (first_violation_prefix _ (b :: later)). by rewrite <- app_assoc.
Qed.

(** ** The shape of a digest *)

Lemma hex_digit_lower (d : Z) :
  (0 <= d < 16)%Z -> is_lower_hex (Sha256.hex_digit d) = true.
Proof.
  intros Hd.
  assert (d = 0 \/ d = 1 \/ d = 2 \/ d = 3 \/ d = 4 \/ d = 5 \/ d = 6 \/ d = 7 \/
          d = 8 \/ d = 9 \/ d = 10 \/ d = 11 \/ d = 12 \/ d = 13 \/ d = 14 \/ d = 15)%Z
    as Hcases by lia.
  repeat (destruct Hcases as [->|Hcases]; [reflexivity|]). by subst.
Qed.

Lemma hex_shape (bytes : list Z) :
  Forall (fun b => 0 <= b < 256)%Z bytes ->
  String.length (Sha256.hex bytes) = (2 * length bytes)%nat /\
  string_forall is_lower_hex (Sha256.hex bytes) = true.
Proof.
  induction 1 as [|b bytes Hb _ [IHlen IHhex]]; [done|].
  cbn [Sha256.hex String.length string_forall length]. split; [lia|].
  rewrite IHhex, !hex_digit_lower; [done| |].
  - change 15%Z with (Z.ones 4). rewrite Z.land_ones by lia.
    apply Z.mod_pos_bound. lia.
  - rewrite Z.shiftr_div_pow2 by lia. change (2 ^ 4)%Z with 16%Z.
    split; [apply Z.div_pos; lia|apply Z.div_lt_upper_bound; lia].
Qed.

Lemma be_bytes_range (n : nat) (x : Z) :
  Forall (fun b => 0 <= b < 256)%Z (Sha256.be_bytes n x).
Proof.
  induction n as [|n IH]; cbn [Sha256.be_bytes]; constructor; [|done].
  change 255%Z with (Z.ones 8). rewrite Z.land_ones by lia.
  apply Z.mod_pos_bound. lia.
Qed.

Lemma digest_shape (msg : list Z) :
  length (Sha256.digest msg) = 32%nat /\
  Forall (fun b => 0 <= b < 256)%Z (Sha256.digest msg).
Proof.
  unfold Sha256.digest. cbv zeta.
  set (h := Sha256.absorb _ _ _). clearbody h.
  split; [reflexivity|].
  cbn [flat_map]. rewrite !Forall_app. repeat split; try apply be_bytes_range.
  constructor.
Qed.

Lemma sha256_hexdigest_shape (s : string) :
  String.length (sha256_hexdigest s) = 64%nat /\
  string_forall is_lower_hex (sha256_hexdigest s) = true.
Proof.
  unfold sha256_hexdigest, Sha256.hexdigest.
  destruct (digest_shape (encode s)) as [Hlen Hrange].
  destruct (hex_shape _ Hrange) as [Hl Hhex]. by rewrite Hl, Hlen.
Qed.

(** X10. Every digest [calculate_hash] returns, hence the hash of every
    record that was constructed and the previous hash of every record that was
    appended, is a string of exactly 64 characters, each a lowercase
    hexadecimal digit. *)
Theorem calculate_hash_shape (b : Block) (h : string) :
  calculate_hash b = Ok h ->
  String.length h = 64%nat /\ string_forall is_lower_hex h = true.
Proof.
  unfold calculate_hash. destruct (json_dumps _) as [s|e]; cbn [result_bind];
    [|discriminate].
  intros [= <-]. apply sha256_hexdigest_shape.
Qed.

Lemma substring_prefix (n : nat) (s : string) :
  (n <= String.length s)%nat ->
  String.length (substring 0 n s) = n /\
  exists rest, s = substring 0 n s ++ rest.
Proof.
  revert s. induction n as [|n IH]; intros s Hn.
  - destruct s; (split; [done|]); by eexists.
  - destruct s as [|c s]; [cbn in Hn; lia|]. cbn [String.length] in Hn.
    destruct (IH s) as [Hlen [rest Hrest]]; [lia|].
    cbn [substring String.length]. split; [lia|].
    exists rest. change (String c s = String c (substring 0 n s ++ rest)).
    by rewrite <- Hrest.
Qed.

Lemma string_forall_app (p : ascii -> bool) (s t : string) :
  string_forall p (s ++ t) = string_forall p s && string_forall p t.
Proof.
  induction s as [|c s IH]; [done|].
  change (string_forall p (String c (s ++ t))
          = string_forall p (String c s) && string_forall p t).
  cbn [string_forall]. by rewrite IH, andb_assoc.
Qed.

(** X11. The text [repr] gives for a sealed record shows the index, the
    location, the action and exactly the first eight hexadecimal digits of the
    record's hash. *)
Theorem Block_repr_sealed (b : Block) :
  sealed b ->
  exists shown rest,
    hash b = shown ++ rest /\
    String.length shown = 8%nat /\
    string_forall is_lower_hex shown = true /\
    Block_repr b
    = "Block " ++ int_repr (index b) ++ ": " ++ location b ++ " - " ++ action b
      ++ " (Hash: " ++ shown ++ "...)".
Proof.
  intros Hs. destruct (calculate_hash_shape b (hash b) Hs) as [Hlen Hhex].
  destruct (substring_prefix 8 (hash b)) as [Hl [rest Hrest]]; [lia|].
  exists (substring 0 8 (hash b)), rest. repeat split; try done.
  rewrite Hrest, string_forall_app in Hhex. by apply andb_true_iff in Hhex as [? _].
Qed.

(** ** What [validate_chain] prints *)

Lemma check_position (i : nat) (prev cur : Block) (d : diagnostic) :
  check i prev cur = Ok (Some d) -> diagnostic_position d = i.
Proof.
  unfold check. destruct (calculate_hash cur) as [h|e]; cbn [result_bind]; [|done].
  destruct (negb _); [by intros [= <-]|].
  destruct (negb _); [by intros [= <-]|done].
Qed.

Lemma scan_position (i : nat) (prev : Block) (rest : list Block) (d : diagnostic) :
  scan i prev rest = Ok (Some d) ->
  (i <= diagnostic_position d < i + length rest)%nat.
Proof.
  revert i prev. induction rest as [|cur rest IH]; intros i prev; [done|].
  cbn [scan length]. destruct (check i prev cur) as [[d'|]|e] eqn:Hcheck; try done.
  - intros [= ->]. apply check_position in Hcheck. lia.
  - intros Hscan. apply IH in Hscan. lia.
Qed.

(** X12. [validate_chain] prints exactly one diagnostic when it returns
    [False], and the position it names is a position of the chain other than
    0; when it returns [True] or raises it prints nothing.  It never changes
    the chain. *)
Theorem validate_chain_report (w : world) :
  match outcome validate_chain w with
  | Ok false =>
      exists d, exec validate_chain w = World (chain w) (console w ++ [d]) /\
                (1 <= diagnostic_position d < length (chain w))%nat
  | _ => exec validate_chain w = w
  end.
Proof.
  unfold outcome, exec. rewrite validate_chain_verdict.
  destruct (first_violation (chain w)) as [[d|]|e] eqn:Hfirst; cbn [verdict fst snd];
    try done.
  exists d. split; [done|].
  destruct (chain w) as [|genesis rest]; [done|]. cbn [first_violation length] in *.
  apply scan_position in Hfirst. lia.
Qed.

(** ** The text that is hashed *)

Lemma calculate_hash_block_string (b : Block) :
  calculate_hash b = result_map sha256_hexdigest (block_string b).
Proof. reflexivity. Qed.

Lemma unescape_escape_char (c : ascii) (rest : string) :
  unescape_head (escape_char c ++ rest) = Some (c, rest).
Proof. destruct c as [[] [] [] [] [] [] [] []]; reflexivity. Qed.

Lemma string_app_inv_head (p s t : string) : p ++ s = p ++ t -> s = t.
Proof.
  induction p as [|c p IH]; [done|].
  change (String c (p ++ s) = String c (p ++ t) -> s = t). intros [= H]. auto.
Qed.

Lemma string_app_assoc (s t u : string) : (s ++ t) ++ u = s ++ (t ++ u).
Proof.
  induction s as [|c s IH]; [done|].
  change (String c ((s ++ t) ++ u) = String c (s ++ (t ++ u))). by rewrite IH.
Qed.

(** An escaped string body up to its closing quote determines the string. *)
Lemma escape_inj (s t : string) (r1 r2 : string) :
  escape s ++ String dquote r1 = escape t ++ String dquote r2 ->
  s = t /\ r1 = r2.
Proof.
  revert t. induction s as [|c s IH]; intros [|c' t]; cbn [escape].
  - change (String dquote r1 = String dquote r2 -> "" = "" /\ r1 = r2).
    by intros [= ->].
  - rewrite string_app_assoc. intros Heq.
    apply (f_equal unescape_head) in Heq. by rewrite unescape_escape_char in Heq.
  - rewrite string_app_assoc. intros Heq.
    apply (f_equal unescape_head) in Heq. by rewrite unescape_escape_char in Heq.
  - rewrite !string_app_assoc. intros Heq.
    apply (f_equal unescape_head) in Heq. rewrite !unescape_escape_char in Heq.
    injection Heq as -> Heq. by destruct (IH _ Heq) as [-> ->].
Qed.

Lemma encode_basestring_ascii_inj (s t : string) (r1 r2 : string) :
  encode_basestring_ascii s ++ r1 = encode_basestring_ascii t ++ r2 ->
  s = t /\ r1 = r2.
Proof.
  unfold encode_basestring_ascii.
  change (String dquote ((escape s ++ String dquote "") ++ r1)
          = String dquote ((escape t ++ String dquote "") ++ r2) -> s = t /\ r1 = r2).
  rewrite !string_app_assoc. intros [= Heq]. by apply escape_inj in Heq.
Qed.

Lemma block_string_eq (b : Block) :
  block_string b
  = result_bind (json_dumps (data b)) (fun d =>
      Ok ("{" ++ encode_basestring_ascii "action" ++ ": "
              ++ encode_basestring_ascii (action b) ++ ", "
              ++ encode_basestring_ascii "data" ++ ": " ++ d ++ ", "
              ++ encode_basestring_ascii "index" ++ ": " ++ int_repr (index b) ++ ", "
              ++ encode_basestring_ascii "location" ++ ": "
              ++ encode_basestring_ascii (location b) ++ ", "
              ++ encode_basestring_ascii "order_id" ++ ": "
              ++ encode_basestring_ascii (order_id b) ++ ", "
              ++ encode_basestring_ascii "previous_hash" ++ ": "
              ++ encode_basestring_ascii (previous_hash b) ++ ", "
              ++ encode_basestring_ascii "timestamp" ++ ": "
              ++ encode_basestring_ascii (datetime_str (timestamp b)) ++ "}")).
Proof.
  unfold block_string. rewrite json_dumps_dict.
  cbn [map fst snd]. rewrite sorted_block_items.
  cbn [join_items json_dumps result_bind].
  destruct (json_dumps (data b)) as [d|e]; cbn [result_bind]; [|done].
  f_equal. rewrite !string_app_assoc. reflexivity.
Qed.

Ltac peel_common_head H :=
  repeat match type of H with
         | String.append ?p ?s = String.append ?p ?t =>
             apply (string_app_inv_head p s t) in H
         end.

(** X13. Overwriting the order id, the location, the action or the previous
    hash of a record with a different value changes the text that is hashed:
    after such a change the digest is the SHA-256 of a different text. *)
Theorem string_attribute_changes_text (b : Block) (a : assignment) (s s' : string) :
  changes_string_attribute b a ->
  block_string b = Ok s -> block_string (setattr b a) = Ok s' ->
  s <> s' /\
  calculate_hash b = Ok (sha256_hexdigest s) /\
  calculate_hash (setattr b a) = Ok (sha256_hexdigest s').
Proof.
  intros Hchange Hs Hs'. split.
  2:{ rewrite !calculate_hash_block_string, Hs, Hs'. done. }
  rewrite block_string_eq in Hs, Hs'.
  destruct a as [v|v|v|v|v|v|v|v]; cbn [changes_string_attribute] in Hchange; try done;
    cbn [setattr index timestamp order_id location action data previous_hash] in Hs';
    destruct (json_dumps (data b)) as [d|e]; cbn [result_bind] in Hs, Hs';
    try discriminate;
    injection Hs as <-; injection Hs' as <-; intros Heq; apply Hchange;
    symmetry; peel_common_head Heq;
    by apply encode_basestring_ascii_inj in Heq as [? _].
Qed.

(** ** The further properties on the scenario *)

Lemma scenario_chain_eq : chain scenario = scenario_records.
Proof. vm_compute. reflexivity. Qed.

Lemma scenario_validates : validate_chain scenario = (Ok true, scenario).
Proof. apply valid_state_validates, (well_formed_ledger scenario_clock [] _). Qed.

Lemma scenario_outcome : outcome validate_chain scenario = Ok true.
Proof. unfold outcome. by rewrite scenario_validates. Qed.

Lemma scenario_last : exists l, last (chain scenario) = Some l.
Proof.
  apply last_is_Some, well_formed_nonempty, (well_formed_ledger scenario_clock [] _).
Qed.

Lemma append_keeps_verdict_witness :
  exists b w',
    add_block "A1" "Loc3" "Delivered" (PDict [("recipient", PStr "Ana")])
              scenario_clock scenario = (Ok b, w') /\
    outcome validate_chain w' = outcome validate_chain scenario.
Proof.
  destruct scenario_last as [l Hl].
  destruct (add_block_accepted "A1" "Loc3" "Delivered"
              (PDict [("recipient", PStr "Ana")]) scenario_clock scenario l Hl eq_refl)
    as (b & Hrun & _).
  eexists b, _. split; [exact Hrun|].
  exact (proj1 (append_keeps_verdict _ _ _ _ _ _ _ _ Hrun)).
Defined.

Lemma truncation_undetected_witness :
  validate_chain (World (take 2 (chain scenario)) [])
  = (Ok true, World (take 2 (chain scenario)) []).
Proof.
  apply (truncation_undetected (take 2 (chain scenario)) (drop 2 (chain scenario)) []).
  rewrite take_drop. unfold outcome.
  rewrite valid_state_validates; [reflexivity|].
  apply (well_formed_ledger scenario_clock [] _).
Defined.

Lemma removal_breaks_link_witness :
  exists g b1 b2,
    scenario_records = [g; b1; b2] /\
    validate_chain (World [g; b2] []) = (Ok false, World [g; b2] [ChainBroken 1]).
Proof.
  lazymatch eval unfold scenario_records in scenario_records with
  | [?g; ?b1; ?b2] =>
      exists g, b1, b2; split; [reflexivity|];
      refine (removal_breaks_link [] [] g b1 b2 [] _ _)
  end.
  - change (outcome validate_chain (World scenario_records []) = Ok true).
    rewrite <- scenario_chain_eq. unfold outcome.
    rewrite valid_state_validates; [reflexivity|].
    apply (well_formed_ledger scenario_clock [] _).
  - cbn [hash]. discriminate.
Defined.

Lemma journey_after_append_witness :
  exists b w' r,
    add_block "A1" "Loc3" "Delivered" (PDict [("recipient", PStr "Ana")])
              scenario_clock scenario = (Ok b, w') /\
    get_order_journey "A1" scenario = (Ok r, scenario) /\
    get_order_journey "A1" w' = (Ok (r ++ [b])%list, w').
Proof.
  destruct scenario_last as [l Hl].
  destruct (add_block_accepted "A1" "Loc3" "Delivered"
              (PDict [("recipient", PStr "Ana")]) scenario_clock scenario l Hl eq_refl)
    as (b & Hrun & _).
  destruct (journey_after_append _ _ _ _ _ _ _ _ "A1" Hrun) as (r & Hr & Hr').
  rewrite bool_decide_eq_true_2 in Hr' by reflexivity.
  eexists b, _, r.
  split; [exact Hrun|]. split; [exact Hr|exact Hr'].
Defined.

Lemma rehashed_last_record_validates_witness :
  let w' := exec (chain_rehash 2)
              (exec (chain_setattr 2 (SetAction "PACKAGE LOST")) scenario) in
  validate_chain w' = (Ok true, w').
Proof.
  refine (proj2 (rehashed_last_record_validates scenario 2 _
                   (SetAction "PACKAGE LOST") _ _ _ _ _ _)).
  - exact scenario_outcome.
  - rewrite scenario_chain_eq. reflexivity.
  - rewrite scenario_chain_eq. reflexivity.
  - reflexivity.
  - vm_compute. reflexivity.
Defined.

Lemma rehashed_record_breaks_successor_witness :
  let w' := exec (chain_rehash 0)
              (exec (chain_setattr 0 (SetAction "PACKAGE LOST")) scenario) in
  validate_chain w'
  = (Ok false, World (chain w') (console scenario ++ [ChainBroken 1])%list).
Proof.
  refine (rehashed_record_breaks_successor scenario 0 _
            (SetAction "PACKAGE LOST") _ _ _ _ _ _ _).
  - exact scenario_outcome.
  - rewrite scenario_chain_eq. reflexivity.
  - rewrite scenario_chain_eq. cbn [scenario_records length]. lia.
  - reflexivity.
  - vm_compute. reflexivity.
  - cbn [hash]. discriminate.
Defined.

Lemma unserializable_tamper_raises_witness :
  exists cls,
    let w' := exec (chain_setattr 1 (SetData (PObj "set" true))) scenario in
    validate_chain w' = (Raise (not_serializable cls), w').
Proof.
  assert (exists b, chain scenario !! 1%nat = Some b) as [b Hb].
  { rewrite scenario_chain_eq. by eexists. }
  destruct (unserializable_tamper_raises scenario 1 b (PObj "set" true)
              scenario_outcome (le_n 1) Hb eq_refl) as [cls [_ Hraise]].
  exists cls. exact Hraise.
Defined.

Lemma calculate_hash_shape_witness :
  exists b,
    Block_init 0 scenario_clock "GENESIS" "System" "Chain Initialized" "0" PNone = Ok b /\
    String.length (hash b) = 64%nat /\ string_forall is_lower_hex (hash b) = true.
Proof.
  destruct (Block_init_ok 0 scenario_clock "GENESIS" "System" "Chain Initialized" "0"
              PNone eq_refl) as [b Hb].
  exists b. split; [exact Hb|].
  apply Block_init_sealed in Hb as [Hs _].
  exact (calculate_hash_shape b (hash b) Hs).
Defined.

Lemma Block_repr_sealed_witness :
  exists g shown,
    chain scenario !! 0%nat = Some g /\
    String.length shown = 8%nat /\
    Block_repr g = "Block 0: System - Chain Initialized (Hash: " ++ shown ++ "...)".
Proof.
  assert (exists g, chain scenario !! 0%nat = Some g /\ index g = 0%Z /\
                    location g = "System" /\ action g = "Chain Initialized")
    as (g & Hg & Hi & Hl & Ha).
  { rewrite scenario_chain_eq. eexists. repeat split. }
  assert (sealed g) as Hs.
  { exact (proj1 (proj2 (proj2 (well_formed_ledger scenario_clock [] _))) 0%nat g Hg). }
  destruct (Block_repr_sealed g Hs) as (shown & rest & _ & Hlen & _ & Hrepr).
  exists g, shown. split; [exact Hg|]. split; [exact Hlen|].
  rewrite Hrepr, Hi, Hl, Ha. reflexivity.
Defined.

Lemma string_attribute_changes_text_witness :
  exists s s',
    block_string (mkBlock 0 scenario_clock "GENESIS" "System" "Chain Initialized"
                          (PDict []) "0" "") = Ok s /\
    block_string (mkBlock 0 scenario_clock "GENESIS" "System" "PACKAGE LOST"
                          (PDict []) "0" "") = Ok s' /\
    s <> s'.
Proof.
  eexists _, _. split; [vm_compute; reflexivity|]. split; [vm_compute; reflexivity|].
  refine (proj1 (string_attribute_changes_text
                   (mkBlock 0 scenario_clock "GENESIS" "System" "Chain Initialized"
                            (PDict []) "0" "")
                   (SetAction "PACKAGE LOST") _ _ _ _ _)).
  - cbn. discriminate.
  - vm_compute. reflexivity.
  - vm_compute. reflexivity.
Defined.
